(** * Job log manager and plugin lockfile manager

    A shallow embedding of

      - [src/meltano/core/logging/job_logging_service.py]
      - [src/meltano/core/plugin_lock_service.py]

    Both modules are thin wrappers around the file system, so the
    development starts with a small model of the operating system calls
    they make, continues with an error/state monad in which the Python
    methods are transcribed line by line, and ends with the properties
    of the two services.

    A file holds bytes.  Reading in text mode decodes them with the
    codec of the locale, a parameter, and translates the line ends;
    writing stores the bytes it is given.  What the model of the system
    leaves out: symbolic links and failures of [close].  Reading is
    never refused; opening for writing, writing, unlinking and [mkdir]
    can be refused with any [errno]. *)

From Stdlib Require Import ZArith Lia.
From stdpp Require Import gmap strings list sorting.

Local Open Scope Z_scope.

(** ** Paths, files and the world *)

(** A path is the list of its components below the project root. *)
Abbreviation path := (list string).

(** The [errno] of a failed system call.  Python maps [ENOENT] to
    [FileNotFoundError], a subclass of [OSError]; all the others are
    [OSError]s that are not [FileNotFoundError]. *)
Inductive errno := ENOENT | EACCES | EEXIST | ENOTDIR | EISDIR | ENOSPC | EMFILE | EIO.

#[global] Instance errno_eq_dec : EqDecision errno.
Proof. solve_decision. Defined.

(** What [os.stat] reports about a file or a directory. *)
Record stat_result := Stat { st_size : Z; st_ctime_ns : Z }.

(** A regular file: its status record and its bytes. *)
Record file := File { f_stat : stat_result; f_content : string }.

(** The mutating system calls; the operating system may refuse each of
    them on a given path for reasons the model does not look into
    (permissions, full disk, invalid name, exhausted descriptors). *)
Inductive syscall := SysOpenW | SysWrite | SysUnlink | SysMkdir.

(** An open, writable file object: a real file or the null device. *)
Inductive sink := SinkFile (p : path) | SinkNull.

#[global] Instance sink_eq_dec : EqDecision sink.
Proof. solve_decision. Defined.

(** A record written through [logging.error]. *)
Inductive log_record := CouldNotOpenLog (log_file_name : path).

Record world := World {
  files   : gmap path file;                      (* regular files *)
  dirs    : gmap path stat_result;               (* directories *)
  refuse  : syscall → path → option errno;       (* refusals by the OS *)
  clock   : Z;                                   (* time stamp of the next change *)
  opened  : list sink;                           (* file objects not yet closed *)
  errlog  : list log_record;                     (* the root logger's output *)
}.

Definition set_files (m : gmap path file) (w : world) : world :=
  World m (dirs w) (refuse w) (clock w) (opened w) (errlog w).
Definition set_dirs (d : gmap path stat_result) (w : world) : world :=
  World (files w) d (refuse w) (clock w) (opened w) (errlog w).
Definition set_opened (o : list sink) (w : world) : world :=
  World (files w) (dirs w) (refuse w) (clock w) o (errlog w).
Definition set_errlog (l : list log_record) (w : world) : world :=
  World (files w) (dirs w) (refuse w) (clock w) (opened w) l.

(** [os.devnull]: it lives outside the project tree and is only used as
    the key under which the OS may refuse to open it. *)
Definition devnull : path := ["/dev/null"].

(** A path at which there is neither a file nor a directory. *)
Definition gone (p : path) (w : world) : Prop :=
  files w !! p = None ∧ dirs w !! p = None.

(** A path that the system lets a program open for writing and write
    to. *)
Definition writable (p : path) (w : world) : Prop :=
  refuse w SysOpenW p = None ∧ refuse w SysWrite p = None ∧ dirs w !! p = None.

(** Is the directory [p] in its place: not a regular file as well,
    and, unless it is the project root, inside a directory? *)
Definition in_tree (w : world) (p : path) : bool :=
  negb (bool_decide (is_Some (files w !! p))) &&
  match reverse p with
  | [] => true
  | _ :: rev_head => bool_decide (is_Some (dirs w !! reverse rev_head))
  end.

(** A disk whose directories form a tree. *)
Definition tree (w : world) : Prop :=
  map_Forall (λ p _, in_tree w p = true) (dirs w).

(** What a call that only makes directories does to the world: the
    directories that were there stay as they are, those that appear
    are among [ds], and nothing else moves. *)
Definition only_makes (ds : list path) (w w1 : world) : Prop :=
  w1 = set_dirs (dirs w1) w
  ∧ dirs w ⊆ dirs w1
  ∧ ∀ p, is_Some (dirs w1 !! p) → is_Some (dirs w !! p) ∨ p ∈ ds.

(** ** The monad of the embedding: state and exceptions *)

Inductive result (E A : Type) := Ok (a : A) | Raise (e : E).
Arguments Ok {E A} a.
Arguments Raise {E A} e.

Definition M (E A : Type) : Type := world → result E A * world.

Definition ret {E A} (a : A) : M E A := λ w, (Ok a, w).
Definition raise {E A} (e : E) : M E A := λ w, (Raise e, w).
Definition bind {E A B} (m : M E A) (k : A → M E B) : M E B :=
  λ w, match m w with
       | (Ok a, w') => k a w'
       | (Raise e, w') => (Raise e, w')
       end.

(** [try: m except e: h e] *)
Definition try_except {E A} (m : M E A) (h : E → M E A) : M E A :=
  λ w, match m w with
       | (Ok a, w') => (Ok a, w')
       | (Raise e, w') => h e w'
       end.

(** [try: m finally: c] for a [c] that cannot fail (closing a file). *)
Definition try_finally {E A} (m : M E A) (c : world → world) : M E A :=
  λ w, match m w with (r, w') => (r, c w') end.

(** Run an OS call inside Python: its [errno] becomes an exception. *)
Definition lift {E E' A} (f : E → E') (m : M E A) : M E' A :=
  λ w, match m w with
       | (Ok a, w') => (Ok a, w')
       | (Raise e, w') => (Raise (f e), w')
       end.

Declare Scope py_scope.
Delimit Scope py_scope with py.
Notation "'let*' x := m 'in' k" := (bind m (λ x, k))
  (at level 10, x name, m at level 100, k at level 200) : py_scope.
Notation "m >> k" := (bind m (λ _, k))
  (at level 100, k at level 200, right associativity) : py_scope.
Local Open Scope py_scope.

(** ** System calls *)

Module OS.

(** [os.stat(p)] *)
Definition stat (p : path) : M errno stat_result :=
  λ w, match files w !! p with
       | Some f => (Ok (f_stat f), w)
       | None =>
         match dirs w !! p with
         | Some st => (Ok st, w)
         | None => (Raise ENOENT, w)
         end
       end.

(** [open(p).read()], or [p.read_bytes()]: open for reading, read to
    the end, close. *)
Definition read (p : path) : M errno string :=
  λ w, match files w !! p with
       | Some f => (Ok (f_content f), w)
       | None => (Raise (if dirs w !! p is Some _ then EISDIR else ENOENT), w)
       end.

(** [p.exists()] *)
Definition exists_ (p : path) (w : world) : bool :=
  bool_decide (is_Some (files w !! p) ∨ is_Some (dirs w !! p)).

(** [open(p, "w")]: creates the file or truncates it. *)
Definition open_w (p : path) : M errno sink :=
  λ w, match refuse w SysOpenW p with
       | Some e => (Raise e, w)
       | None =>
         if dirs w !! p is Some _ then (Raise EISDIR, w)
         else (Ok (SinkFile p),
               set_opened (SinkFile p :: opened w)
                 (set_files (<[p := File (Stat 0 (clock w)) ""]> (files w)) w))
       end.

(** [open(os.devnull, "w")] *)
Definition open_devnull : M errno sink :=
  λ w, match refuse w SysOpenW devnull with
       | Some e => (Raise e, w)
       | None => (Ok SinkNull, set_opened (SinkNull :: opened w) w)
       end.

(** [f.write(data)]: the null device swallows everything; a file that
    was unlinked in the meantime takes the bytes with it. *)
Definition write (s : sink) (data : string) : M errno Z :=
  λ w, match s with
       | SinkNull => (Ok (Z.of_nat (String.length data)), w)
       | SinkFile p =>
         match refuse w SysWrite p with
         | Some e => (Raise e, w)
         | None =>
           match files w !! p with
           | Some f =>
             let c := (f_content f +:+ data)%string in
             (Ok (Z.of_nat (String.length data)),
              set_files (<[p := File (Stat (Z.of_nat (String.length c)) (clock w)) c]>
                           (files w)) w)
           | None => (Ok (Z.of_nat (String.length data)), w)
           end
         end
       end.

Fixpoint remove_first (s : sink) (l : list sink) : list sink :=
  match l with
  | [] => []
  | x :: l' => if decide (x = s) then l' else x :: remove_first s l'
  end.

(** [f.close()] *)
Definition close (s : sink) (w : world) : world :=
  set_opened (remove_first s (opened w)) w.

(** [p.unlink()]; a directory is not unlinked, and Linux says so with
    [EISDIR]. *)
Definition unlink (p : path) : M errno unit :=
  λ w, match refuse w SysUnlink p with
       | Some e => (Raise e, w)
       | None =>
         match files w !! p with
         | Some _ => (Ok tt, set_files (delete p (files w)) w)
         | None => (Raise (if dirs w !! p is Some _ then EISDIR else ENOENT), w)
         end
       end.

(** What a file object opened in text mode with [newline=None] makes of
    the line ends when reading: [\r\n] and [\r] become [\n]. *)
Definition CR : Ascii.ascii := Ascii.ascii_of_nat 13.
Definition LF : Ascii.ascii := Ascii.ascii_of_nat 10.

Fixpoint universal_newlines (s : string) : string :=
  match s with
  | EmptyString => EmptyString
  | String c s' =>
    if Ascii.eqb c CR
    then match s' with
         | String c' s'' =>
           if Ascii.eqb c' LF then String LF (universal_newlines s'')
           else String LF (universal_newlines s')
         | EmptyString => String LF EmptyString
         end
    else String c (universal_newlines s')
  end.

(** All the prefixes of a path, the path itself included. *)
Fixpoint ancestors (p : path) : list path :=
  match p with
  | [] => [[]]
  | c :: p' => [] :: map (cons c) (ancestors p')
  end.

(** [os.mkdir(p)], for a path given by its components in reverse:
    the directory above [p] must be there, and nothing at [p].  The
    directory above the project root is outside the model. *)
Definition mkdir_rev (rev_p : list string) : M errno unit :=
  λ w, let p := reverse rev_p in
       let made := (Ok tt, set_dirs (<[p := Stat 0 (clock w)]> (dirs w)) w) in
       match refuse w SysMkdir p with
       | Some e => (Raise e, w)
       | None =>
         if exists_ p w then (Raise EEXIST, w)
         else match rev_p with
              | [] => made
              | _ :: rev_head =>
                if dirs w !! reverse rev_head is Some _ then made
                else (Raise (if files w !! reverse rev_head is Some _
                             then ENOTDIR else ENOENT), w)
              end
       end.

(** The last statement of [os.makedirs(name, exist_ok=True)]: an error
    of [mkdir] is let pass when [name] is a directory. *)
Definition mkdir_exist_ok (rev_name : list string) : M errno unit :=
  try_except (mkdir_rev rev_name)
    (λ e w, if dirs w !! reverse rev_name is Some _ then (Ok tt, w) else (Raise e, w)).

(** The body of [os.makedirs(name, exist_ok=True)], by recursion on
    the components of [name] from the last one:

    [[
      head, tail = path.split(name)
      if head and tail and not path.exists(head):
          try:
              makedirs(head, exist_ok=exist_ok)
          except FileExistsError:
              pass
      try:
          mkdir(name, mode)
      except OSError:
          if not exist_ok or not path.isdir(name):
              raise
    ]]

    The directories above [name] are made one after the other, so a
    failure on the way leaves those that were made before it. *)
Fixpoint makedirs_rev (rev_name : list string) : M errno unit :=
  (match rev_name with
   | [] => ret tt
   | _ :: rev_head =>
     λ w, if exists_ (reverse rev_head) w then (Ok tt, w)
          else try_except (makedirs_rev rev_head)
                 (λ e, if decide (e = EEXIST) then ret tt else raise e) w
   end) >>
  mkdir_exist_ok rev_name.

(** [os.makedirs(d, exist_ok=True)] *)
Definition makedirs (d : path) : M errno unit := makedirs_rev (reverse d).

(** Does [name] match the pattern [*.log]? *)
Definition ends_with (suffix s : string) : bool :=
  let n := String.length s in
  let k := String.length suffix in
  (k <=? n)%nat && String.eqb (String.substring (n - k) k s) suffix.

Fixpoint strip_prefix (root p : path) : option path :=
  match root, p with
  | [], _ => Some p
  | r :: root', c :: p' => if decide (r = c) then strip_prefix root' p' else None
  | _ :: _, [] => None
  end.

(** Is [p] matched by [root.glob("**/*.log")]?  The pattern needs at
    least one component below [root], and the last one must match. *)
Definition matches_log (root p : path) : bool :=
  match strip_prefix root p with
  | Some (c :: rest) => ends_with ".log" (List.last rest c)
  | _ => false
  end.

(** Everything there is on the disk, each path once.  The order in
    which a directory walk meets the entries depends on the system;
    here the regular files come before the directories. *)
Definition entries (w : world) : list path :=
  map fst (map_to_list (files w)) ++
  filter (λ p, files w !! p = None) (map fst (map_to_list (dirs w))).

(** [root.glob("**/*.log")]: the pattern is matched against names, so
    the result holds the regular files and the directories with such a
    name, each once. *)
Definition glob_log (root : path) (w : world) : list path :=
  filter (λ p, matches_log root p = true) (entries w).

End OS.

(** ** Collaborators

    The project object resolves the directory layout; [slugify] and the
    [@makedirs] decorator come from [meltano.core.utils].  None of them
    is part of the two modules, so they are parameters here. *)

Record Project := {
  (* the path that [project.job_logs_dir(state_id, *joinpaths)] returns *)
  job_logs_path : string → list string → path;
  (* the path that [project.run_dir(kind)] returns *)
  run_path : string → path;
  (* [project.plugin_lock_path(type, name, variant_name=...)] *)
  plugin_lock_path : string → string → string → path;
}.

(** ** The job logging service *)

Module JobLogging.

Definition MAX_FILE_SIZE : Z := 2097152.

(** The exceptions that travel through this module.  [Exception_]
    stands for whatever else the block under [create_log] raises. *)
Inductive exn :=
| OSError (e : errno)
| StopIteration
| MissingJobLogException (state_id : string) (missing : option path)
| SizeThresholdJobLogException
| UnboundLocalError (name : string)
| UnicodeDecodeError
| RuntimeError (msg : string)
| Exception_ (tag : nat).

#[global] Instance exn_eq_dec : EqDecision exn.
Proof. solve_decision. Defined.

Definition FileNotFoundError : exn := OSError ENOENT.

Definition is_OSError (e : exn) : bool :=
  match e with OSError _ => true | _ => false end.

(** A point at which other processes get to change the disk. *)
Definition meanwhile (env : world → world) : M exn unit :=
  λ w, (Ok tt, env w).

(** [sorted(xs, key=..., reverse=True)] on the decorated list: the
    keys decrease, and elements with equal keys keep their order. *)
Fixpoint insert_desc {A} (x : Z * A) (l : list (Z * A)) : list (Z * A) :=
  match l with
  | [] => [x]
  | y :: l' => if (fst y <=? fst x)%Z then x :: y :: l' else y :: insert_desc x l'
  end.

Fixpoint sorted_reverse {A} (l : list (Z * A)) : list (Z * A) :=
  match l with
  | [] => []
  | x :: l' => insert_desc x (sorted_reverse l')
  end.

Fixpoint mapM {A B} (f : A → M exn B) (l : list A) : M exn (list B) :=
  match l with
  | [] => ret []
  | x :: l' => let* y := f x in let* ys := mapM f l' in ret (y :: ys)
  end.

Fixpoint for_each {A} (f : A → M exn unit) (l : list A) : M exn unit :=
  match l with
  | [] => ret tt
  | x :: l' => f x >> for_each f l'
  end.

(** [next(iter(l))] *)
Definition next_iter {A} (l : list A) : M exn A :=
  match l with
  | x :: _ => ret x
  | [] => raise StopIteration
  end.

Section Service.

Variable project : Project.
(** [slugify(state_id)] *)
Variable slugify : string → string.
(** The directory that [@makedirs] creates for the path its function
    returns. *)
Variable makedirs_dir : path → path.
(** [str(p.resolve())] *)
Variable resolve : path → string.
(** The codec of the locale, with which [open] in text mode decodes
    the bytes it reads; [None] stands for [UnicodeDecodeError]. *)
Variable decode : string → option string.
(** Whether [contextlib] closes a generator that yields once more
    where it should stop, before it raises [RuntimeError]: it does from
    Python 3.12 on, and leaves the generator suspended before. *)
Variable closes_generator : bool.

(** The decorator [@makedirs]: the function runs, the directory for
    the path it returns is made with [os.makedirs(..., exist_ok=True)],
    and the path is returned. *)
Definition makedirs (func : M exn path) : M exn path :=
  let* p := func in
  lift OSError (OS.makedirs (makedirs_dir p)) >> ret p.

(** Modelled from the spec: [Project.job_logs_dir] and
    [Project.run_dir] are methods of the project object, which is not
    part of the two modules.  Section 6 of the specification gives
    [Project.job_logs_dir(state_id, *joinpaths) → path], with directory
    auto-creation, and [Project.run_dir(kind) → path]; section 2 says
    of the object that it produces paths creating parent directories as
    needed.  Both are taken to be decorated with [@makedirs]. *)
Definition job_logs_dir (state_id : string) (joinpaths : list string) : M exn path :=
  makedirs (ret (job_logs_path project state_id joinpaths)).

(** Modelled from the spec: [Project.run_dir(kind) → path], see
    [job_logs_dir]. *)
Definition run_dir (kind : string) : M exn path :=
  makedirs (ret (run_path project kind)).

(** [@makedirs def logs_dir(self, state_id, *joinpaths)] *)
Definition logs_dir (state_id : string) (joinpaths : list string) : M exn path :=
  makedirs (job_logs_dir state_id joinpaths).

Definition generate_log_name (state_id run_id file_name : string) : M exn path :=
  logs_dir state_id [run_id; file_name].

Definition legacy_logs_dir (state_id : string) (joinpaths : list string)
  : M exn (option path) :=
  let* run := run_dir "elt" in
  let job_dir := run ++ slugify state_id :: joinpaths in
  λ w, (Ok (if OS.exists_ job_dir w then Some job_dir else None), w).

Definition logs_dirs (state_id : string) (joinpaths : list string)
  : M exn (list path) :=
  let* logs_dir := logs_dir state_id joinpaths in
  let* legacy_logs_dir := legacy_logs_dir state_id joinpaths in
  let dirs := [logs_dir] in
  ret (match legacy_logs_dir with
       | Some d => dirs ++ [d]
       | None => dirs
       end).

(** [key=lambda path: os.stat(path).st_ctime_ns], paired with the path *)
Definition ctime_key (p : path) : M exn (Z * path) :=
  let* st := lift OSError (OS.stat p) in ret (st_ctime_ns st, p).

Definition get_all_logs (state_id : string) : M exn (list path) :=
  let* dirs := logs_dirs state_id [] in
  let* found := (λ w, (Ok (flat_map (λ d, OS.glob_log d w) dirs), w)) in
  let* keyed := mapM ctime_key found in
  ret (map snd (sorted_reverse keyed)).

(** The two [except] clauses of [get_latest_log] and of
    [get_downloadable_log]; [latest_log] is [None] as long as the
    local variable has not been assigned. *)
Definition on_missing (state_id : string) (latest_log : option path) (e : exn)
  : exn :=
  match e with
  | StopIteration => MissingJobLogException state_id None
  | OSError ENOENT =>
    match latest_log with
    | Some p => MissingJobLogException state_id (Some p)
    | None => UnboundLocalError "latest_log"
    end
  | _ => e
  end.

(** [with latest_log.open() as f: return f.read()]: the file is
    opened in text mode, so what is read is the bytes decoded, with
    the line ends translated. *)
Definition read_text (p : path) : M exn string :=
  let* data := lift OSError (OS.read p) in
  match decode data with
  | Some text => ret (OS.universal_newlines text)
  | None => raise UnicodeDecodeError
  end.

(** [get_latest_log], with the changes [env1] and [env2] that other
    processes make to the disk after the logs were listed and after
    the size was checked. *)
Definition get_latest_log_amid (env1 env2 : world → world) (state_id : string)
  : M exn string :=
  try_except
    (let* logs := get_all_logs state_id in
     let* latest_log := next_iter logs in
     try_except
       (meanwhile env1 >>
        let* st := lift OSError (OS.stat latest_log) in
        if (MAX_FILE_SIZE <? st_size st)%Z
        then raise SizeThresholdJobLogException
        else meanwhile env2 >> read_text latest_log)
       (λ e, raise (on_missing state_id (Some latest_log) e)))
    (λ e, raise (on_missing state_id None e)).

Definition get_latest_log : string → M exn string :=
  get_latest_log_amid id id.

Definition get_downloadable_log (state_id : string) : M exn string :=
  try_except
    (let* logs := get_all_logs state_id in
     let* latest_log := next_iter logs in
     ret (resolve latest_log))
    (λ e, raise (on_missing state_id None e)).

Definition delete_all_logs (state_id : string) : M exn unit :=
  let* logs := get_all_logs state_id in
  for_each (λ log_path, lift OSError (OS.unlink log_path)) logs.

(** *** [create_log]: a generator under [@contextmanager]

    The generator function has two [yield]s, so a suspended
    generator is at one of two places, holding the file object of
    the enclosing [with open(...)]. *)
Inductive generator :=
| Created (state_id run_id file_name : string)
| AtYieldLog (log_file_name : path) (log_file : sink)   (* line 52, inside [try] *)
| AtYieldNull (log_file : sink)            (* line 61, inside [except OSError] *)
| Finished.

(** What resuming a generator gives, when it does not raise. *)
Inductive resumed :=
| Yielded (value : sink) (g : generator)
| Returned.

(** The [except OSError] clause, lines 53 to 61. *)
Definition use_devnull (log_file_name : path) : M exn resumed :=
  (λ w, (Ok tt, set_errlog (CouldNotOpenLog log_file_name :: errlog w) w)) >>
  let* log_file := lift OSError OS.open_devnull in
  ret (Yielded log_file (AtYieldNull log_file)).

(** [gen.send(None)] when [thrown] is [None], [gen.throw(e)] when it
    is [Some e]. *)
Definition resume (g : generator) (thrown : option exn) : M exn resumed :=
  match g, thrown with
  | Created state_id run_id file_name, None =>
    let* log_file_name := generate_log_name state_id run_id file_name in
    try_except
      (let* log_file := lift OSError (OS.open_w log_file_name) in
       ret (Yielded log_file (AtYieldLog log_file_name log_file)))
      (λ e, if is_OSError e then use_devnull log_file_name else raise e)
  | Created _ _ _, Some e => raise e
  | AtYieldLog _ log_file, None =>
    (λ w, (Ok Returned, OS.close log_file w))
  | AtYieldLog log_file_name log_file, Some e =>
    (λ w, (Ok tt, OS.close log_file w)) >>
    if is_OSError e then use_devnull log_file_name else raise e
  | AtYieldNull log_file, None =>
    (λ w, (Ok Returned, OS.close log_file w))
  | AtYieldNull log_file, Some e =>
    (λ w, (Ok tt, OS.close log_file w)) >> raise e
  | Finished, None => raise StopIteration
  | Finished, Some e => raise e
  end.

(** [gen.close()]: [GeneratorExit] is raised at the [yield]; it is
    not an [OSError], so it only unwinds the [with]. *)
Definition gen_close (g : generator) (w : world) : world :=
  match g with
  | AtYieldLog _ log_file | AtYieldNull log_file => OS.close log_file w
  | _ => w
  end.

(** [contextlib._GeneratorContextManager.__enter__] *)
Definition cm_enter (state_id run_id file_name : string)
  : M exn (sink * generator) :=
  let* r := resume (Created state_id run_id file_name) None in
  match r with
  | Yielded v g => ret (v, g)
  | Returned => raise (RuntimeError "generator didn't yield")
  end.

(** What [contextlib] does with a generator that has yielded when it
    should have stopped. *)
Definition abandon (g : generator) : M exn unit :=
  λ w, (Ok tt, if closes_generator then gen_close g w else w).

(** [contextlib._GeneratorContextManager.__exit__]: the result says
    whether the exception is suppressed. *)
Definition cm_exit (g : generator) (exc : option exn) : M exn bool :=
  match exc with
  | None =>
    let* r := resume g None in
    match r with
    | Returned => ret false
    | Yielded _ g' =>
      abandon g' >>
      raise (RuntimeError "generator didn't stop")
    end
  | Some value =>
    let* r := try_except
                (let* r := resume g (Some value) in ret (Some r))
                (λ e, if decide (e = value) then ret None else raise e) in
    match r with
    | None => ret false
    | Some Returned => ret true
    | Some (Yielded _ g') =>
      abandon g' >>
      raise (RuntimeError "generator didn't stop after throw()")
    end
  end.

(** [with self.create_log(state_id, run_id, file_name) as f: block f] *)
Definition with_create_log {A} (state_id run_id file_name : string)
    (block : sink → M exn A) : M exn (option A) :=
  let* entered := cm_enter state_id run_id file_name in
  let '(f, g) := entered in
  λ w, match block f w with
       | (Ok a, w') => (cm_exit g None >> ret (Some a)) w'
       | (Raise e, w') =>
         (let* suppress := cm_exit g (Some e) in
          if suppress : bool then ret None else raise e) w'
       end.

End Service.

(** *** Vocabulary for the properties *)

(** Keys decrease along a decorated list. *)
Definition descending {A} : relation (Z * A) := λ x y, fst y ≤ fst x.

(** The creation time stamp that the sort key reads. *)
Definition ctime_of (w : world) (p : path) : Z :=
  match OS.stat p w with
  | (Ok st, _) => st_ctime_ns st
  | _ => 0
  end.

Definition decorate (w : world) (p : path) : Z * path := (ctime_of w p, p).

(** The disk after the files [ps] were unlinked one after the other. *)
Definition unlink_all (ps : list path) (w : world) : world :=
  set_files (foldl (λ m p, delete p m) (files w) ps) w.


(** A block for [create_log] that writes the chunks to the file object
    it is given, one [write] per chunk. *)
Definition write_all (f : sink) (chunks : list string) : M exn unit :=
  for_each (λ chunk, lift OSError (OS.write f chunk) >> ret tt) chunks.


(** What reading in text mode makes of the bytes of a file. *)
Definition text_of (decode : string → option string) (data : string)
  : result exn string :=
  match decode data with
  | Some text => Ok (OS.universal_newlines text)
  | None => Raise UnicodeDecodeError
  end.

(** What [get_latest_log] makes of the latest log once its size is
    accepted: the text of a regular file, as far as it can be decoded. *)
Definition served (decode : string → option string) (state_id : string)
    (latest_log : path) (w : world) : result exn string :=
  match OS.read latest_log w with
  | (Ok data, _) => text_of decode data
  | (Raise e, _) => Raise (on_missing state_id (Some latest_log) (OSError e))
  end.

Section Layout.

Variable project : Project.
Variable slugify : string → string.
Variable makedirs_dir : path → path.

(** The two places where the logs of a job may be. *)
Definition primary_dir (state_id : string) : path :=
  job_logs_path project state_id [].
Definition legacy_dir (state_id : string) : path :=
  run_path project "elt" ++ [slugify state_id].

(** The directories that the helpers make when the logs of a job are
    listed: the one of [logs_dir], then the one of [run_dir("elt")]. *)
Definition make_logs_dirs (state_id : string) : M errno unit :=
  OS.makedirs (makedirs_dir (primary_dir state_id)) >>
  OS.makedirs (makedirs_dir (run_path project "elt")).

(** The directories that are searched, and what the search finds in
    them, before sorting. *)
Definition searched (state_id : string) (w : world) : list path :=
  primary_dir state_id ::
    (if OS.exists_ (legacy_dir state_id) w then [legacy_dir state_id] else []).

Definition found (state_id : string) (w : world) : list path :=
  flat_map (λ d, OS.glob_log d w) (searched state_id w).

End Layout.

End JobLogging.

(** ** SHA-256

    [hashlib.sha256(data).hexdigest()], following FIPS 180-4 on 32-bit
    words kept in [Z]. *)

Module SHA256.

Definition w32 (x : Z) : Z := x mod 2 ^ 32.
Definition add32 (x y : Z) : Z := w32 (x + y).
Definition not32 (x : Z) : Z := Z.lxor x 0xFFFFFFFF.
Definition rotr (n x : Z) : Z :=
  Z.lor (Z.shiftr x n) (w32 (Z.shiftl x (32 - n))).
Definition shr (n x : Z) : Z := Z.shiftr x n.

Definition Ch (x y z : Z) : Z := Z.lxor (Z.land x y) (Z.land (not32 x) z).
Definition Maj (x y z : Z) : Z :=
  Z.lxor (Z.lxor (Z.land x y) (Z.land x z)) (Z.land y z).
Definition Sigma0 (x : Z) : Z := Z.lxor (Z.lxor (rotr 2 x) (rotr 13 x)) (rotr 22 x).
Definition Sigma1 (x : Z) : Z := Z.lxor (Z.lxor (rotr 6 x) (rotr 11 x)) (rotr 25 x).
Definition sigma0 (x : Z) : Z := Z.lxor (Z.lxor (rotr 7 x) (rotr 18 x)) (shr 3 x).
Definition sigma1 (x : Z) : Z := Z.lxor (Z.lxor (rotr 17 x) (rotr 19 x)) (shr 10 x).

(** The constants of the standard are the first 32 bits of the
    fractional parts of the square roots (for the initial hash value)
    and of the cube roots (for the round constants) of the first
    primes; they are computed here rather than copied. *)
Definition is_prime (n : nat) : bool :=
  (2 <=? n)%nat && forallb (λ d, negb (n mod d =? 0)%nat) (seq 2 (n - 2)).

Definition primes (count : nat) : list Z :=
  map Z.of_nat (take count (List.filter is_prime (seq 2 400))).

(** The integer cube root, one bit after the other from the top. *)
Fixpoint cube_root_from (bit : nat) (n r : Z) : Z :=
  match bit with
  | O => r
  | S bit' =>
    let r' := r + 2 ^ Z.of_nat bit' in
    cube_root_from bit' n (if r' * r' * r' <=? n then r' else r)
  end.

Definition frac_sqrt32 (p : Z) : Z := w32 (Z.sqrt (p * 2 ^ 64)).
Definition frac_cbrt32 (p : Z) : Z := w32 (cube_root_from 40 (p * 2 ^ 96) 0).

Definition K : list Z := Eval vm_compute in map frac_cbrt32 (primes 64).

(** The eight words of the hash value. *)
Record state := State { ha : Z; hb : Z; hc : Z; hd : Z; he : Z; hf : Z; hg : Z; hh : Z }.

Definition H0_words : list Z := Eval vm_compute in map frac_sqrt32 (primes 8).

Definition H0 : state :=
  match H0_words with
  | [a; b; c; d; e; f; g; h] => State a b c d e f g h
  | _ => State 0 0 0 0 0 0 0 0
  end.

Definition bytes_of (s : string) : list Z :=
  map (λ c, Z.of_N (Ascii.N_of_ascii c)) (String.list_ascii_of_string s).

(** Big-endian bytes of [x], [n] of them. *)
Fixpoint be_bytes (n : nat) (x : Z) : list Z :=
  match n with
  | O => []
  | S n' => be_bytes n' (x / 256) ++ [x mod 256]
  end.

(** The message, a one bit, zero bits up to 56 modulo 64 bytes, and
    the length of the message in bits on eight bytes. *)
Definition pad (msg : list Z) : list Z :=
  let l := Z.of_nat (length msg) in
  let k := (55 - l) mod 64 in
  msg ++ [0x80] ++ repeat 0 (Z.to_nat k) ++ be_bytes 8 (8 * l).

Fixpoint words (fuel : nat) (bs : list Z) : list Z :=
  match fuel, bs with
  | S fuel', b0 :: b1 :: b2 :: b3 :: bs' =>
    (((b0 * 256 + b1) * 256 + b2) * 256 + b3) :: words fuel' bs'
  | _, _ => []
  end.

Fixpoint blocks (fuel : nat) (ws : list Z) : list (list Z) :=
  match fuel, ws with
  | S fuel', _ :: _ => take 16 ws :: blocks fuel' (drop 16 ws)
  | _, _ => []
  end.

(** The message schedule, most recent word first: [rev_w] holds
    [W(t-1), W(t-2), ...]. *)
Fixpoint extend (n : nat) (rev_w : list Z) : list Z :=
  match n with
  | O => rev_w
  | S n' =>
    let w := add32 (add32 (sigma1 (nth 1 rev_w 0)) (nth 6 rev_w 0))
                   (add32 (sigma0 (nth 14 rev_w 0)) (nth 15 rev_w 0)) in
    extend n' (w :: rev_w)
  end.

Definition schedule (block : list Z) : list Z := rev (extend 48 (rev block)).

Definition round (s : state) (kw : Z * Z) : state :=
  let t1 := add32 (add32 (add32 (hh s) (Sigma1 (he s))) (Ch (he s) (hf s) (hg s)))
                  (add32 (fst kw) (snd kw)) in
  let t2 := add32 (Sigma0 (ha s)) (Maj (ha s) (hb s) (hc s)) in
  State (add32 t1 t2) (ha s) (hb s) (hc s) (add32 (hd s) t1) (he s) (hf s) (hg s).

Definition compress (h : state) (block : list Z) : state :=
  let s := fold_left round (combine K (schedule block)) h in
  State (add32 (ha h) (ha s)) (add32 (hb h) (hb s)) (add32 (hc h) (hc s))
        (add32 (hd h) (hd s)) (add32 (he h) (he s)) (add32 (hf h) (hf s))
        (add32 (hg h) (hg s)) (add32 (hh h) (hh s)).

Definition digest (data : string) : state :=
  let bs := pad (bytes_of data) in
  fold_left compress (blocks (length bs) (words (length bs) bs)) H0.

(** The digest as one number of 256 bits. *)
Definition to_Z (s : state) : Z :=
  ((((((ha s * 2 ^ 32 + hb s) * 2 ^ 32 + hc s) * 2 ^ 32 + hd s) * 2 ^ 32
      + he s) * 2 ^ 32 + hf s) * 2 ^ 32 + hg s) * 2 ^ 32 + hh s.

Definition hex_digit (d : Z) : Ascii.ascii :=
  Ascii.ascii_of_N (Z.to_N (if d <? 10 then 48 + d else 87 + d)).

(** [n] hexadecimal digits of [x], most significant first. *)
Fixpoint hex (n : nat) (x : Z) (acc : string) : string :=
  match n with
  | O => acc
  | S n' => hex n' (x / 16) (String (hex_digit (x mod 16)) acc)
  end.

Definition hexdigest (data : string) : string := hex 64 (to_Z (digest data)) "".

(** Every word of a hash value is a 32-bit word. *)
Definition words32 (s : state) : Prop :=
  (0 ≤ ha s < 2 ^ 32) ∧ (0 ≤ hb s < 2 ^ 32) ∧
  (0 ≤ hc s < 2 ^ 32) ∧ (0 ≤ hd s < 2 ^ 32) ∧
  (0 ≤ he s < 2 ^ 32) ∧ (0 ≤ hf s < 2 ^ 32) ∧
  (0 ≤ hg s < 2 ^ 32) ∧ (0 ≤ hh s < 2 ^ 32).

End SHA256.

(** ** The plugin lockfile service *)

(** The plugin model of [meltano.core.plugin] and the [json] module, as
    far as the lockfile service uses them.  An exception raised by one
    of them is known by its class name only. *)
Class PluginInterface := {
  ProjectPlugin : Type;
  PluginDefinition : Type;
  Variant : Type;
  StandalonePlugin : Type;
  (* what [canonical()] returns and [json] reads and writes *)
  Mapping : Type;
  (* [plugin.definition] and [plugin.variant] *)
  plugin_definition : ProjectPlugin → PluginDefinition;
  plugin_variant : ProjectPlugin → string;
  (* [definition.type], [definition.name], [variant.name] *)
  definition_type : PluginDefinition → string;
  definition_name : PluginDefinition → string;
  variant_name : Variant → string;
  (* [definition.find_variant(name)] *)
  find_variant : PluginDefinition → string → result string Variant;
  (* [StandalonePlugin.from_variant(variant, definition)] *)
  from_variant : Variant → PluginDefinition → StandalonePlugin;
  (* [locked_def.canonical()] *)
  canonical : StandalonePlugin → Mapping;
  (* [StandalonePlugin] called with the mapping as its keyword arguments *)
  new_StandalonePlugin : Mapping → result string StandalonePlugin;
  (* the text that [json.dump(obj, f, indent=2)] writes to [f] *)
  json_dump : Mapping → string;
  (* [json.load(f)] on the text of [f] *)
  json_load : string → result string Mapping;
}.

Module PluginLocks.

Section Service.

Context {plugins : PluginInterface}.
Variable project : Project.

Inductive exn :=
| OSError (e : errno)
| LockfileAlreadyExistsError (path_ : path) (plugin : ProjectPlugin)
| Foreign (class_name : string).

Definition FileNotFoundError : exn := OSError ENOENT.

(** The attributes that [__init__] sets ([self.project] is the
    section variable). *)
Record PluginLock := {
  definition : PluginDefinition;
  variant : Variant;
  path_ : path;
}.

(** [PluginLock.__init__] *)
Definition new_PluginLock (plugin : ProjectPlugin) : M exn PluginLock :=
  let definition := plugin_definition plugin in
  let* variant := lift Foreign
                    (λ w, (find_variant definition (plugin_variant plugin), w)) in
  ret {| definition := definition;
         variant := variant;
         path_ := plugin_lock_path project (definition_type definition)
                    (definition_name definition) (variant_name variant) |}.

(** [PluginLock.save] *)
Definition save (self : PluginLock) : M exn unit :=
  let locked_def := from_variant (variant self) (definition self) in
  let* lockfile := lift OSError (OS.open_w (path_ self)) in
  try_finally
    (lift OSError (OS.write lockfile (json_dump (canonical locked_def))) >> ret tt)
    (OS.close lockfile).

(** The default [loader]: [json.load] on the file, then [StandalonePlugin]
    on the keyword arguments read. *)
Definition default_loader (text : string) : result exn StandalonePlugin :=
  match json_load text with
  | Ok kwargs =>
    match new_StandalonePlugin kwargs with
    | Ok p => Ok p
    | Raise c => Raise (Foreign c)
    end
  | Raise c => Raise (Foreign c)
  end.

(** The inner function [_load]: the loader receives the open file;
    what it makes of it is a function of the text in the file. *)
Definition _load {A} (self : PluginLock) (loader : string → result exn A) : M exn A :=
  let* text := lift OSError (OS.read (path_ self)) in
  λ w, (loader text, w).

(** [PluginLock.load] *)
Definition load {A} (self : PluginLock) (create : bool)
    (loader : string → result exn A) : M exn A :=
  try_except
    (_load self loader)
    (λ e, match e with
          | OSError ENOENT =>
            if create then save self >> _load self loader else raise e
          | _ => raise e
          end).

(** [PluginLock.sha256_checksum] *)
Definition sha256_checksum (self : PluginLock) : M exn string :=
  let* bytes := lift OSError (OS.read (path_ self)) in
  ret (SHA256.hexdigest bytes).

(** [PluginLockService.save]; the closing [logger.debug] call has no
    effect on the file system and is left out. *)
Definition service_save (plugin : ProjectPlugin) (exists_ok : bool) : M exn unit :=
  let* plugin_lock := new_PluginLock plugin in
  λ w, if OS.exists_ (path_ plugin_lock) w && negb exists_ok
       then (Raise (LockfileAlreadyExistsError (path_ plugin_lock) plugin), w)
       else save plugin_lock w.

(** *** Vocabulary for the properties *)

(** The text that [save] writes. *)
Definition lock_text (self : PluginLock) : string :=
  json_dump (canonical (from_variant (variant self) (definition self))).

(** The disk after [save] has written the lockfile. *)
Definition saved (self : PluginLock) (w : world) : world :=
  set_files
    (<[path_ self := File (Stat (Z.of_nat (String.length (lock_text self))) (clock w))
                          (lock_text self)]> (files w)) w.

End Service.

End PluginLocks.

(** ** A concrete project

    The layout of section 6 of the specification, used for the
    examples: logs under [logs/elt/<state_id>/<run_id>/<file_name>], the
    old layout under [run/elt/<slug>], lockfiles under
    [plugins/<type>/<name>--<variant>.lock.json]. *)

Module Scenario.

Definition project : Project := {|
  job_logs_path := λ state_id joinpaths, ["logs"; "elt"; state_id] ++ joinpaths;
  run_path := λ kind, ["run"; kind];
  plugin_lock_path := λ type name variant_name,
    ["plugins"; type; name +:+ "--" +:+ variant_name +:+ ".lock.json"];
|}.

(** State identifiers of the examples are slugs already. *)
Definition slugify (s : string) : string := s.

(** The number of characters before the first dot. *)
Fixpoint until_dot (name : list Ascii.ascii) : option nat :=
  match name with
  | [] => None
  | c :: name' =>
    if Ascii.eqb c (Ascii.ascii_of_nat 46) then Some O else S <$> until_dot name'
  end.

(** [bool(PurePath(name).suffix)]: the last dot of the name is neither
    its first nor its last character. *)
Definition has_suffix (name : string) : bool :=
  match until_dot (reverse (String.list_ascii_of_string name)) with
  | Some after => (0 <? after)%nat && (after + 1 <? String.length name)%nat
  | None => false
  end.

(** [path.parent if path.suffix else path], the directory that
    [@makedirs] makes. *)
Definition makedirs_dir (p : path) : path :=
  match reverse p with
  | name :: rev_parent => if has_suffix name then reverse rev_parent else p
  | [] => p
  end.

(** The [contextlib] of Python 3.11. *)
Definition closes_generator : bool := false.

(** The ASCII codec. *)
Definition decode (data : string) : option string :=
  if forallb (λ c, (Ascii.nat_of_ascii c <? 128)%nat) (String.list_ascii_of_string data)
  then Some data else None.

Definition resolve (p : path) : string :=
  foldl (λ acc c, acc +:+ "/" +:+ c) "/project" p.

Definition never : syscall → path → option errno := λ _ _, None.

Definition log (size ctime : Z) (text : string) : file := File (Stat size ctime) text.

(** Three runs of the job [dev], the oldest in the old layout, and a
    run of another job. *)
Definition disk : world := {|
  files := list_to_map
    [ (["logs"; "elt"; "dev"; "run-1"; "elt.log"], log 6 100 "first!");
      (["logs"; "elt"; "dev"; "run-2"; "elt.log"], log 7 300 "second!");
      (["logs"; "elt"; "dev"; "run-2"; "notes.txt"], log 5 400 "notes");
      (["run"; "elt"; "dev"; "old-run"; "elt.log"], log 4 50 "old!");
      (["logs"; "elt"; "prod"; "run-9"; "elt.log"], log 2 500 "p!") ];
  dirs := list_to_map
    (map (λ d, (d, Stat 0 0))
       [ []; ["logs"]; ["logs"; "elt"]; ["logs"; "elt"; "dev"];
         ["logs"; "elt"; "dev"; "run-1"]; ["logs"; "elt"; "dev"; "run-2"];
         ["logs"; "elt"; "prod"]; ["logs"; "elt"; "prod"; "run-9"];
         ["run"]; ["run"; "elt"]; ["run"; "elt"; "dev"];
         ["run"; "elt"; "dev"; "old-run"] ]);
  refuse := never;
  clock := 1000;
  opened := [];
  errlog := [];
|}.



(** A small plugin model: a definition with its variants, each variant
    with the package it installs, and a codec for the flat JSON objects
    that such a plugin is written as. *)
Record variant_ := { v_name : string; v_pip_url : string }.
Record definition_ := { d_type : string; d_name : string; d_variants : list variant_ }.
Record project_plugin := { p_definition : definition_; p_variant : string }.
Record standalone := { s_type : string; s_name : string; s_variant : string; s_pip_url : string }.

Definition dquote : string := String (Ascii.ascii_of_nat 34) "".
Definition newline : string := String (Ascii.ascii_of_nat 10) "".

Definition dump_item (kv : string * string) : string :=
  "  " +:+ dquote +:+ fst kv +:+ dquote +:+ ": " +:+ dquote +:+ snd kv +:+ dquote.

Fixpoint dump_items (m : list (string * string)) : string :=
  match m with
  | [] => ""
  | [kv] => dump_item kv +:+ newline
  | kv :: m' => dump_item kv +:+ "," +:+ newline +:+ dump_items m'
  end.

Definition dump (m : list (string * string)) : string :=
  "{" +:+ newline +:+ dump_items m +:+ "}".

(** The text cut at every double quote. *)
Fixpoint pieces (s : string) : list string :=
  match s with
  | EmptyString => [""]
  | String c s' =>
    if Ascii.eqb c (Ascii.ascii_of_nat 34) then "" :: pieces s'
    else match pieces s' with
         | p :: ps => String c p :: ps
         | [] => [String c ""]
         end
  end.

(** Keys and values are the pieces between the quotes. *)
Fixpoint pairs (l : list string) : option (list (string * string)) :=
  match l with
  | [_] => Some []
  | _ :: k :: _ :: v :: rest => cons (k, v) <$> pairs rest
  | _ => None
  end.

Definition parse (text : string) : result string (list (string * string)) :=
  match pairs (pieces text) with
  | Some m => Ok m
  | None => Raise "JSONDecodeError"
  end.

Definition plugins : PluginInterface := {|
  ProjectPlugin := project_plugin;
  PluginDefinition := definition_;
  Variant := variant_;
  StandalonePlugin := standalone;
  Mapping := list (string * string);
  plugin_definition := p_definition;
  plugin_variant := p_variant;
  definition_type := d_type;
  definition_name := d_name;
  variant_name := v_name;
  find_variant := λ d name,
    match List.find (λ v, String.eqb (v_name v) name) (d_variants d) with
    | Some v => Ok v
    | None => Raise "VariantNotFoundError"
    end;
  from_variant := λ v d, {| s_type := d_type d; s_name := d_name d;
                            s_variant := v_name v; s_pip_url := v_pip_url v |};
  canonical := λ s, [("plugin_type", s_type s); ("name", s_name s);
                     ("variant", s_variant s); ("pip_url", s_pip_url s)];
  new_StandalonePlugin := λ m,
    match m with
    | [("plugin_type", t); ("name", n); ("variant", v); ("pip_url", u)] =>
      Ok {| s_type := t; s_name := n; s_variant := v; s_pip_url := u |}
    | _ => Raise "TypeError"
    end;
  json_dump := dump;
  json_load := parse;
|}.

Definition tap_gitlab : project_plugin := {|
  p_definition := {|
    d_type := "extractors";
    d_name := "tap-gitlab";
    d_variants := [ {| v_name := "meltanolabs"; v_pip_url := "meltanolabs-tap-gitlab" |};
                    {| v_name := "singer-io"; v_pip_url := "tap-gitlab" |} ];
  |};
  p_variant := "meltanolabs";
|}.

(** The lock of [tap_gitlab], as [PluginLock.__init__] builds it. *)
Definition gitlab_lock : @PluginLocks.PluginLock plugins :=
  @PluginLocks.Build_PluginLock plugins
    (p_definition tap_gitlab)
    {| v_name := "meltanolabs"; v_pip_url := "meltanolabs-tap-gitlab" |}
    ["plugins"; "extractors"; "tap-gitlab--meltanolabs.lock.json"].

(** The disk with a lockfile of [tap_gitlab] that holds [text]. *)
Definition lockfile_holding (text : string) : world :=
  set_files
    (<[PluginLocks.path_ gitlab_lock :=
         File (Stat (Z.of_nat (String.length text)) 900) text]> (files disk))
    disk.

(** A loader that looks for a file named in the lock and does not find
    it when the lock is the stale one. *)
Definition picky_loader (text : string) : result (@PluginLocks.exn plugins) string :=
  if String.eqb text "stale" then Raise PluginLocks.FileNotFoundError else Ok text.

(** The disk when every [mkdir] fails with [ENOENT], as it does in a
    directory that has just been removed. *)
Definition vanishing_disk : world := {|
  files := files disk;
  dirs := dirs disk;
  refuse := λ call p, match call with SysMkdir => Some ENOENT | _ => None end;
  clock := 1000;
  opened := [];
  errlog := [];
|}.

(** The disk when it is full: files can be opened, nothing can be
    written. *)
Definition full_disk : world := {|
  files := files (lockfile_holding "stale");
  dirs := dirs disk;
  refuse := λ call p, match call with SysWrite => Some ENOSPC | _ => None end;
  clock := 1000;
  opened := [];
  errlog := [];
|}.

(** Two runs of the job [twins] with the same time stamp, one in each
    layout, and an older one. *)
Definition tied_disk : world := {|
  files := list_to_map
    [ (["run"; "elt"; "twins"; "run-a"; "elt.log"], log 1 700 "a");
      (["logs"; "elt"; "twins"; "run-b"; "elt.log"], log 1 700 "b");
      (["logs"; "elt"; "twins"; "run-c"; "elt.log"], log 1 600 "c") ];
  dirs := list_to_map
    (map (λ d, (d, Stat 0 0))
       [ []; ["logs"]; ["logs"; "elt"]; ["logs"; "elt"; "twins"];
         ["logs"; "elt"; "twins"; "run-b"]; ["logs"; "elt"; "twins"; "run-c"];
         ["run"]; ["run"; "elt"]; ["run"; "elt"; "twins"];
         ["run"; "elt"; "twins"; "run-a"] ]);
  refuse := never;
  clock := 1000;
  opened := [];
  errlog := [];
|}.

(** The disk with a directory named like a log, and no log file, for
    the job [staging]. *)
Definition archive_disk : world :=
  set_dirs
    (<[ ["logs"; "elt"; "staging"; "old.log"] := Stat 0 200 ]>
       (<[ ["logs"; "elt"; "staging"] := Stat 0 0 ]> (dirs disk)))
    disk.

(** A project that never ran anything, on a system that lets nobody
    make the directory [run]. *)
Definition no_run_disk : world := {|
  files := ∅;
  dirs := list_to_map (map (λ d, (d, Stat 0 0)) [ []; ["logs"]; ["logs"; "elt"] ]);
  refuse := λ call p,
    match call with
    | SysMkdir => if decide (p = ["run"]) then Some EACCES else None
    | _ => None
    end;
  clock := 1000;
  opened := [];
  errlog := [];
|}.

(** A log written on another system: its lines end in [\r\n]. *)
Definition dos_disk : world :=
  set_files
    (<[ ["logs"; "elt"; "dev"; "run-4"; "elt.log"] :=
          log 12 600 ("begin" +:+ String OS.CR (String OS.LF "") +:+ "end"
                      +:+ String OS.CR (String OS.LF "")) ]> (files disk))
    (set_dirs (<[ ["logs"; "elt"; "dev"; "run-4"] := Stat 0 600 ]> (dirs disk)) disk).

(** The disk with a directory where the lockfile of [tap_gitlab] should
    be. *)
Definition lock_dir_disk : world :=
  set_dirs (<[PluginLocks.path_ gitlab_lock := Stat 0 900]> (dirs disk)) disk.

(** Another plugin with the type, the name and the variant name of
    [tap_gitlab], installed from a fork. *)
Definition tap_gitlab_fork : project_plugin := {|
  p_definition := {|
    d_type := "extractors";
    d_name := "tap-gitlab";
    d_variants := [ {| v_name := "meltanolabs"; v_pip_url := "git+https://example.com/fork" |} ];
  |};
  p_variant := "meltanolabs";
|}.

Definition fork_lock : @PluginLocks.PluginLock plugins :=
  @PluginLocks.Build_PluginLock plugins
    (p_definition tap_gitlab_fork)
    {| v_name := "meltanolabs"; v_pip_url := "git+https://example.com/fork" |}
    ["plugins"; "extractors"; "tap-gitlab--meltanolabs.lock.json"].

End Scenario.

(** * Properties *)

(** ** The decorate-sort-undecorate of [sorted] *)

Section Sorting.

Context {A : Type}.
Implicit Types (x : Z * A) (l : list (Z * A)).
Import JobLogging.

Lemma insert_desc_perm x l : JobLogging.insert_desc x l ≡ₚ x :: l.
Proof.
  induction l as [|y l IH]; simpl; [done|].
  destruct (fst y <=? fst x); [done|].
  rewrite IH. apply Permutation_swap.
Qed.

Lemma sorted_reverse_perm l : JobLogging.sorted_reverse l ≡ₚ l.
Proof.
  induction l as [|x l IH]; simpl; [done|].
  by rewrite insert_desc_perm, IH.
Qed.

Lemma insert_desc_sorted x l :
  StronglySorted descending l →
  StronglySorted descending (JobLogging.insert_desc x l).
Proof.
  induction 1 as [|y l Hl IH Hy]; simpl.
  - repeat constructor.
  - destruct (Z.leb_spec (fst y) (fst x)) as [Hle|Hlt].
    + constructor; [by constructor|].
      constructor; [done|].
      eapply Forall_impl; [exact Hy|]. unfold descending. intros; lia.
    + constructor; [done|].
      rewrite insert_desc_perm. constructor; [|done].
      unfold descending. lia.
Qed.

Lemma sorted_reverse_sorted l :
  StronglySorted descending (JobLogging.sorted_reverse l).
Proof.
  induction l; simpl; [constructor|by apply insert_desc_sorted].
Qed.

End Sorting.


(** ** Facts about the system calls *)

Lemma Ok_inj {E A} (a b : A) : @Ok E A a = Ok b → a = b.
Proof. by intros [= ->]. Qed.

Lemma entries_elem w p :
  p ∈ OS.entries w ↔ is_Some (files w !! p) ∨ is_Some (dirs w !! p).
Proof.
  unfold OS.entries. rewrite elem_of_app, list_elem_of_filter, !list_elem_of_fmap. split.
  - intros [[[q f] [-> Hin]]|[_ [[q st] [-> Hin]]]];
      apply elem_of_map_to_list in Hin; eauto.
  - intros [[f Hf]|[st Hst]].
    + left. exists (p, f). split; [done|]. by apply elem_of_map_to_list.
    + destruct (files w !! p) as [f|] eqn:Hf.
      * left. exists (p, f). split; [done|]. by apply elem_of_map_to_list.
      * right. split; [done|]. exists (p, st). split; [done|].
        by apply elem_of_map_to_list.
Qed.

Lemma exists_true p w :
  OS.exists_ p w = true ↔ is_Some (files w !! p) ∨ is_Some (dirs w !! p).
Proof. unfold OS.exists_. apply bool_decide_eq_true. Qed.

Lemma exists_false p w :
  OS.exists_ p w = false ↔ files w !! p = None ∧ dirs w !! p = None.
Proof.
  unfold OS.exists_. rewrite bool_decide_eq_false. split.
  - intros Hno. split; apply eq_None_not_Some; intros Hs; apply Hno; auto.
  - intros [Hf Hd] [[f Hs]|[st Hs]]; congruence.
Qed.

Lemma glob_log_elem root w p :
  p ∈ OS.glob_log root w ↔ OS.exists_ p w = true ∧ OS.matches_log root p = true.
Proof.
  unfold OS.glob_log. rewrite list_elem_of_filter, entries_elem, exists_true. tauto.
Qed.

Lemma ancestors_snoc (q : path) (c : string) :
  OS.ancestors (q ++ [c]) = OS.ancestors q ++ [q ++ [c]].
Proof.
  induction q as [|a q IH]; [done|].
  simpl. by rewrite IH, map_app.
Qed.

Lemma ancestors_self (d : path) : d ∈ OS.ancestors d.
Proof.
  induction d as [|a d IH]; simpl; [by left|].
  right. apply list_elem_of_fmap. by exists d.
Qed.

Lemma only_makes_refl ds w : only_makes ds w w.
Proof. split_and!; [by destruct w|done|by left]. Qed.

Lemma only_makes_trans ds1 ds2 ds w w1 w2 :
  only_makes ds1 w w1 → only_makes ds2 w1 w2 →
  (∀ p, p ∈ ds1 ∨ p ∈ ds2 → p ∈ ds) →
  only_makes ds w w2.
Proof.
  intros (Hw1 & Hsub1 & Hnew1) (Hw2 & Hsub2 & Hnew2) Hds. split_and!.
  - rewrite Hw2, Hw1. by destruct w.
  - by etrans.
  - intros p Hp. destruct (Hnew2 p Hp) as [Hp1|Hp2]; [|right; auto].
    destruct (Hnew1 p Hp1); [by left|right; auto].
Qed.

Lemma only_makes_files ds w w1 : only_makes ds w w1 → files w1 = files w.
Proof. by intros (-> & _). Qed.

Lemma only_makes_frame ds w w1 :
  only_makes ds w w1 →
  refuse w1 = refuse w ∧ clock w1 = clock w ∧ opened w1 = opened w ∧ errlog w1 = errlog w.
Proof. by intros (-> & _). Qed.

Lemma only_makes_dir ds w w1 p :
  only_makes ds w w1 → is_Some (dirs w !! p) → is_Some (dirs w1 !! p).
Proof. intros (_ & Hsub & _) [st Hst]. exists st. by eapply lookup_weaken. Qed.

Lemma only_makes_exists ds w w1 p :
  only_makes ds w w1 → OS.exists_ p w = true → OS.exists_ p w1 = true.
Proof.
  intros Hmk. rewrite !exists_true, (only_makes_files _ _ _ Hmk).
  intros [?|?]; [by left|right]. by eapply only_makes_dir.
Qed.

(** [mkdir]: a directory appears at the path, or nothing changes. *)
Lemma mkdir_rev_inv l w r w1 :
  OS.mkdir_rev l w = (r, w1) →
  (r = Ok tt
   ∧ w1 = set_dirs (<[reverse l := Stat 0 (clock w)]> (dirs w)) w
   ∧ refuse w SysMkdir (reverse l) = None
   ∧ OS.exists_ (reverse l) w = false
   ∧ match l with [] => True | _ :: h => is_Some (dirs w !! reverse h) end)
  ∨ (∃ e, r = Raise e ∧ w1 = w).
Proof.
  unfold OS.mkdir_rev. cbv zeta.
  destruct (refuse w SysMkdir (reverse l)) as [e|]; [intros [= <- <-]; right; eauto|].
  destruct (OS.exists_ (reverse l) w) eqn:Hex; [intros [= <- <-]; right; eauto|].
  destruct l as [|c h]; [intros [= <- <-]; by left|].
  destruct (dirs w !! reverse h) as [st|] eqn:Hh; intros [= <- <-]; [left|right; eauto].
  split_and!; done.
Qed.

(** The last step of [makedirs]: [mkdir], and an error is let pass
    when the directory is there. *)
Lemma mkdir_exist_ok_inv l w r w1 :
  OS.mkdir_exist_ok l w = (r, w1) →
  (r = Ok tt
   ∧ w1 = set_dirs (<[reverse l := Stat 0 (clock w)]> (dirs w)) w
   ∧ refuse w SysMkdir (reverse l) = None
   ∧ OS.exists_ (reverse l) w = false
   ∧ match l with [] => True | _ :: h => is_Some (dirs w !! reverse h) end)
  ∨ (r = Ok tt ∧ w1 = w ∧ is_Some (dirs w !! reverse l))
  ∨ (∃ e, r = Raise e ∧ w1 = w ∧ dirs w !! reverse l = None).
Proof.
  unfold OS.mkdir_exist_ok, try_except.
  destruct (OS.mkdir_rev l w) as [[[]|e] w'] eqn:Hmk;
    apply mkdir_rev_inv in Hmk as [(? & -> & ?)|(e' & ? & ->)]; try done.
  - intros [= <- <-]. by left.
  - destruct (dirs w !! reverse l) as [st|] eqn:Hd; intros [= <- <-]; right.
    + left. eauto.
    + right. eauto.
Qed.

Lemma mkdir_exist_ok_only_makes l w r w1 :
  OS.mkdir_exist_ok l w = (r, w1) → only_makes [reverse l] w w1.
Proof.
  intros H. apply mkdir_exist_ok_inv in H
    as [(_ & -> & _ & Hex & _)|[(_ & -> & _)|(e & _ & -> & _)]];
    try apply only_makes_refl.
  apply exists_false in Hex as [_ Hd]. split_and!.
  - done.
  - simpl. by apply insert_subseteq.
  - intros p. simpl. destruct (decide (p = reverse l)) as [->|Hne].
    + intros _. right. by left.
    + rewrite lookup_insert_ne by done. by left.
Qed.

Lemma mkdir_exist_ok_again l w r w1 :
  OS.mkdir_exist_ok l w = (r, w1) → OS.mkdir_exist_ok l w1 = (r, w1).
Proof.
  intros H. pose proof H as H'. apply mkdir_exist_ok_inv in H'
    as [(-> & -> & Href & Hex & _)|[(_ & -> & _)|(e & _ & -> & _)]]; [|done|done].
  unfold OS.mkdir_exist_ok, try_except, OS.mkdir_rev. cbv zeta.
  cbn [refuse set_dirs clock]. rewrite Href.
  assert (Hnow : OS.exists_ (reverse l)
                   (set_dirs (<[reverse l := Stat 0 (clock w)]> (dirs w)) w) = true).
  { apply exists_true. right. simpl. rewrite lookup_insert_eq. by eexists. }
  rewrite Hnow. cbn [dirs set_dirs]. by rewrite lookup_insert_eq.
Qed.

(** A stable world for the last step stays stable when directories
    are added. *)
Lemma makedirs_rev_unfold c h w :
  OS.makedirs_rev (c :: h) w =
  match (if OS.exists_ (reverse h) w then (Ok tt, w)
         else match OS.makedirs_rev h w with
              | (Raise e, w') => if decide (e = EEXIST) then (Ok tt, w') else (Raise e, w')
              | ok => ok
              end) with
  | (Ok _, w0) => OS.mkdir_exist_ok (c :: h) w0
  | (Raise e, w0) => (Raise e, w0)
  end.
Proof.
  change (OS.makedirs_rev (c :: h)) with
    ((λ w, if OS.exists_ (reverse h) w then (Ok tt, w)
           else try_except (OS.makedirs_rev h)
                  (λ e, if decide (e = EEXIST) then ret tt else raise e) w) >>
     OS.mkdir_exist_ok (c :: h)).
  unfold bind, try_except. destruct (OS.exists_ (reverse h) w); [done|].
  destruct (OS.makedirs_rev h w) as [[[]|e] w']; [done|].
  by destruct (decide (e = EEXIST)).
Qed.

Lemma makedirs_rev_nil w : OS.makedirs_rev [] w = OS.mkdir_exist_ok [] w.
Proof. done. Qed.

(** [makedirs], whatever its outcome: it only makes directories, all of
    them on the way to [d]; when it returns, [d] is a directory; when
    it raises, there is nothing more at [d] than before; and calling it
    again does the same and changes nothing more. *)
Lemma ancestors_length (d p : path) : p ∈ OS.ancestors d → (length p ≤ length d)%nat.
Proof.
  revert p. induction d as [|a d IHd]; intros p; simpl.
  - intros Hp. apply list_elem_of_singleton in Hp as ->. done.
  - intros Hp. apply elem_of_cons in Hp as [->|Hp]; [simpl; lia|].
    apply list_elem_of_fmap in Hp as (q & -> & Hq). simpl.
    specialize (IHd q Hq). lia.
Qed.

Lemma ancestors_cons_rev (c : string) (h : list string) (p : path) :
  p ∈ OS.ancestors (reverse (c :: h)) ↔
  p ∈ OS.ancestors (reverse h) ∨ p = reverse (c :: h).
Proof.
  rewrite reverse_cons, ancestors_snoc, elem_of_app, list_elem_of_singleton. done.
Qed.

Lemma mkdir_exist_ok_made l w w1 :
  OS.mkdir_exist_ok l w = (Ok tt, w1) → is_Some (dirs w1 !! reverse l).
Proof.
  intros H. apply mkdir_exist_ok_inv in H
    as [(_ & -> & _)|[(_ & -> & Hd)|(e & [=] & _)]]; [|done].
  simpl. rewrite lookup_insert_eq. by eexists.
Qed.

Lemma mkdir_exist_ok_raise l w e w1 :
  OS.mkdir_exist_ok l w = (Raise e, w1) → w1 = w.
Proof.
  intros H. by apply mkdir_exist_ok_inv in H
    as [([=] & _)|[([=] & _)|(e' & _ & -> & _)]].
Qed.

Lemma makedirs_rev_spec l w r w1 :
  OS.makedirs_rev l w = (r, w1) →
  only_makes (OS.ancestors (reverse l)) w w1
  ∧ (r = Ok tt → is_Some (dirs w1 !! reverse l))
  ∧ (∀ e, r = Raise e → dirs w1 !! reverse l = dirs w !! reverse l)
  ∧ OS.makedirs_rev l w1 = (r, w1).
Proof.
  revert w r w1. induction l as [|c h IH]; intros w r w1.
  - rewrite makedirs_rev_nil. intros H.
    pose proof (mkdir_exist_ok_only_makes _ _ _ _ H) as Hmk.
    pose proof (mkdir_exist_ok_again _ _ _ _ H) as Hagain.
    split_and!; [done| | |done].
    + intros ->. by apply mkdir_exist_ok_made in H.
    + intros e ->. by apply mkdir_exist_ok_raise in H as ->.
  - rewrite makedirs_rev_unfold.
    assert (Hlast : ∀ w0, only_makes [reverse (c :: h)] w0 w1 →
              only_makes (OS.ancestors (reverse h)) w w0 →
              only_makes (OS.ancestors (reverse (c :: h))) w w1).
    { intros w0 Hmk Hmk0. eapply only_makes_trans; [exact Hmk0|exact Hmk|].
      intros p. rewrite ancestors_cons_rev, list_elem_of_singleton. tauto. }
    assert (Hleaf : reverse (c :: h) ∉ OS.ancestors (reverse h)).
    { intros Hin. apply ancestors_length in Hin.
      rewrite !length_reverse in Hin. simpl in Hin. lia. }
    destruct (OS.exists_ (reverse h) w) eqn:Hex.
    + (* the directory above is there *)
      intros H.
      pose proof (mkdir_exist_ok_only_makes _ _ _ _ H) as Hmk.
      pose proof (mkdir_exist_ok_again _ _ _ _ H) as Hagain.
      split_and!.
      * apply (Hlast w); [done|apply only_makes_refl].
      * intros ->. by apply mkdir_exist_ok_made in H.
      * intros e ->. by apply mkdir_exist_ok_raise in H as ->.
      * rewrite makedirs_rev_unfold.
        by rewrite (only_makes_exists _ _ _ _ Hmk Hex).
    + (* it is not: make it first *)
      destruct (OS.makedirs_rev h w) as [r0 w0] eqn:Hrec.
      destruct (IH _ _ _ Hrec) as (Hmk0 & Hok0 & Hraise0 & Hagain0).
      assert (Hkeep : dirs w0 !! reverse (c :: h) = dirs w !! reverse (c :: h)).
      { destruct Hmk0 as (_ & Hsub & Hnew).
        destruct (dirs w !! reverse (c :: h)) as [st|] eqn:Hd.
        - by eapply lookup_weaken.
        - apply eq_None_not_Some. intros Hs. destruct (Hnew _ Hs) as [Hs'|Hin]; [|done].
          rewrite Hd in Hs'. by destruct Hs'. }
      assert (Habsent : ∀ e, r0 = Raise e → OS.exists_ (reverse h) w0 = false).
      { intros e ->. apply exists_false in Hex as [Hf Hd]. apply exists_false.
        rewrite (only_makes_files _ _ _ Hmk0). split; [done|].
        by rewrite (Hraise0 e eq_refl). }
      destruct r0 as [[]|e0].
      * (* made *)
        intros H.
        pose proof (mkdir_exist_ok_only_makes _ _ _ _ H) as Hmk.
        pose proof (mkdir_exist_ok_again _ _ _ _ H) as Hagain.
        assert (Hhead : OS.exists_ (reverse h) w1 = true).
        { eapply only_makes_exists; [exact Hmk|]. apply exists_true. right. by apply Hok0. }
        split_and!.
        -- by apply (Hlast w0).
        -- intros ->. by apply mkdir_exist_ok_made in H.
        -- intros e ->. by apply mkdir_exist_ok_raise in H as ->.
        -- rewrite makedirs_rev_unfold. by rewrite Hhead.
      * destruct (decide (e0 = EEXIST)) as [->|Hne].
        -- (* somebody else is taken to have made it *)
           intros H.
           pose proof (Habsent _ eq_refl) as Hex0.
           assert (Hw1 : w1 = w0).
           { apply mkdir_exist_ok_inv in H
               as [(_ & _ & _ & _ & Hparent)|[(_ & -> & _)|(e & _ & -> & _)]]; try done.
             apply exists_false in Hex0 as [_ Hd]. rewrite Hd in Hparent.
             by destruct Hparent. }
           subst w1. split_and!.
           ++ apply (Hlast w0); [apply only_makes_refl|done].
           ++ intros ->. by apply mkdir_exist_ok_made in H.
           ++ intros e _. exact Hkeep.
           ++ rewrite makedirs_rev_unfold, Hex0, Hagain0.
              by rewrite decide_True.
        -- intros [= <- <-]. split_and!.
           ++ apply (Hlast w0); [apply only_makes_refl|done].
           ++ done.
           ++ intros e _. exact Hkeep.
           ++ rewrite makedirs_rev_unfold, (Habsent _ eq_refl), Hagain0.
              by rewrite decide_False.
Qed.

Lemma makedirs_only_makes d w r w1 :
  OS.makedirs d w = (r, w1) → only_makes (OS.ancestors d) w w1.
Proof.
  intros H. apply makedirs_rev_spec in H as (H & _). by rewrite reverse_involutive in H.
Qed.

Lemma makedirs_ok d w w1 :
  OS.makedirs d w = (Ok tt, w1) → is_Some (dirs w1 !! d).
Proof.
  intros H. apply makedirs_rev_spec in H as (_ & H & _).
  rewrite reverse_involutive in H. by apply H.
Qed.

(** [makedirs] a second time does the same and changes nothing. *)
Lemma makedirs_again d w r w1 :
  OS.makedirs d w = (r, w1) → OS.makedirs d w1 = (r, w1).
Proof. intros H. by apply makedirs_rev_spec in H as (_ & _ & _ & H). Qed.

Lemma makedirs_files d w r w1 : OS.makedirs d w = (r, w1) → files w1 = files w.
Proof. intros H. eapply only_makes_files. by eapply makedirs_only_makes. Qed.

Lemma makedirs_frame d w r w1 :
  OS.makedirs d w = (r, w1) →
  refuse w1 = refuse w ∧ clock w1 = clock w ∧ opened w1 = opened w ∧ errlog w1 = errlog w.
Proof. intros H. eapply only_makes_frame. by eapply makedirs_only_makes. Qed.

(** In a tree, [makedirs] has nothing to do for a directory that is
    there, whatever the system would refuse. *)
Lemma makedirs_present d w :
  tree w → is_Some (dirs w !! d) → OS.makedirs d w = (Ok tt, w).
Proof.
  intros Htree [st Hd]. unfold OS.makedirs.
  pose proof (Htree d st Hd) as Hin. unfold in_tree in Hin.
  apply andb_true_iff in Hin as [_ Hparent].
  assert (Hstep : OS.mkdir_exist_ok (reverse d) w = (Ok tt, w)).
  { destruct (OS.mkdir_exist_ok (reverse d) w) as [r w1] eqn:H.
    apply mkdir_exist_ok_inv in H
      as [(_ & _ & _ & Hex & _)|[(-> & -> & _)|(e & _ & _ & Hno)]]; [|done|].
    - apply exists_false in Hex as [_ Hex]. rewrite reverse_involutive in Hex. congruence.
    - rewrite reverse_involutive in Hno. congruence. }
  destruct (reverse d) as [|c h] eqn:Hrev.
  - by rewrite makedirs_rev_nil.
  - rewrite makedirs_rev_unfold. apply bool_decide_eq_true in Hparent.
    rewrite (proj2 (exists_true _ _)) by (by right). done.
Qed.

Lemma mkdir_exist_ok_tree l w r w1 :
  tree w → OS.mkdir_exist_ok l w = (r, w1) → tree w1.
Proof.
  intros Htree H. apply mkdir_exist_ok_inv in H
    as [(_ & -> & _ & Hex & Hparent)|[(_ & -> & _)|(e & _ & -> & _)]]; [|done|done].
  apply exists_false in Hex as [Hfile _].
  intros p st. simpl. unfold in_tree. cbn [dirs files set_dirs].
  assert (Hup : ∀ q, is_Some (dirs w !! q) →
                     is_Some (<[reverse l := Stat 0 (clock w)]> (dirs w) !! q)).
  { intros q Hq. destruct (decide (q = reverse l)) as [->|Hne].
    - rewrite lookup_insert_eq. by eexists.
    - by rewrite lookup_insert_ne. }
  destruct (decide (p = reverse l)) as [->|Hne].
  - intros _. rewrite Hfile, reverse_involutive.
    rewrite bool_decide_eq_false_2 by (by intros [? ?]). simpl.
    destruct l as [|c h]; [done|]. apply bool_decide_eq_true. by apply Hup.
  - rewrite lookup_insert_ne by done. intros Hp.
    specialize (Htree p st Hp). unfold in_tree in Htree.
    apply andb_true_iff in Htree as [-> Hparent']. simpl.
    destruct (reverse p) as [|c h]; [done|].
    apply bool_decide_eq_true in Hparent'. apply bool_decide_eq_true. by apply Hup.
Qed.

Lemma makedirs_rev_tree l w r w1 :
  tree w → OS.makedirs_rev l w = (r, w1) → tree w1.
Proof.
  revert w r w1. induction l as [|c h IH]; intros w r w1 Htree.
  - rewrite makedirs_rev_nil. by apply mkdir_exist_ok_tree.
  - rewrite makedirs_rev_unfold.
    destruct (OS.exists_ (reverse h) w); [by apply mkdir_exist_ok_tree|].
    destruct (OS.makedirs_rev h w) as [[[]|e] w0] eqn:Hrec;
      pose proof (IH _ _ _ Htree Hrec) as Htree0.
    + by apply mkdir_exist_ok_tree.
    + destruct (decide (e = EEXIST)); [by apply mkdir_exist_ok_tree|].
      by intros [= <- <-].
Qed.

Lemma makedirs_tree d w r w1 : tree w → OS.makedirs d w = (r, w1) → tree w1.
Proof. apply makedirs_rev_tree. Qed.

Lemma unlink_ok p w w' :
  OS.unlink p w = (Ok tt, w') →
  is_Some (files w !! p) ∧ w' = set_files (delete p (files w)) w.
Proof.
  unfold OS.unlink. destruct (refuse w SysUnlink p); [done|].
  destruct (files w !! p) eqn:Hp; [|done]. intros [= <-]. eauto.
Qed.


Lemma unlink_raise p w e w' : OS.unlink p w = (Raise e, w') → w' = w.
Proof.
  unfold OS.unlink. destruct (refuse w SysUnlink p); [by intros [= _ <-]|].
  destruct (files w !! p); [done|by intros [= _ <-]].
Qed.

(** ** The job logging service *)

Section JobLoggingFacts.

Import JobLogging.

Variable project : Project.
Variable slugify : string → string.
Variable makedirs_dir : path → path.
Variable resolve : path → string.
Variable decode : string → option string.
Variable closes_generator : bool.

Abbreviation get_all_logs := (get_all_logs project slugify makedirs_dir).
Abbreviation get_latest_log := (get_latest_log project slugify makedirs_dir decode).
Abbreviation get_latest_log_amid :=
  (get_latest_log_amid project slugify makedirs_dir decode).
Abbreviation get_downloadable_log :=
  (get_downloadable_log project slugify makedirs_dir resolve).
Abbreviation delete_all_logs := (delete_all_logs project slugify makedirs_dir).
Abbreviation primary_dir := (primary_dir project).
Abbreviation legacy_dir := (legacy_dir project slugify).
Abbreviation make_logs_dirs := (make_logs_dirs project makedirs_dir).
Abbreviation searched := (searched project slugify).
Abbreviation found := (found project slugify).
Abbreviation served := (served decode).

(** A decorated function that only computes a path. *)
Lemma makedirs_ret_run (p : path) w :
  JobLogging.makedirs makedirs_dir (ret p) w =
  match OS.makedirs (makedirs_dir p) w with
  | (Ok _, w1) => (Ok p, w1)
  | (Raise e, w1) => (Raise (OSError e), w1)
  end.
Proof.
  unfold JobLogging.makedirs, bind, lift, ret.
  by destruct (OS.makedirs _ w) as [[[]|e] w1].
Qed.

(** [logs_dir] decorates a function that is decorated already: the
    second [os.makedirs] finds the directory made. *)
Lemma logs_dir_run state_id joinpaths w :
  logs_dir project makedirs_dir state_id joinpaths w =
  match OS.makedirs (makedirs_dir (job_logs_path project state_id joinpaths)) w with
  | (Ok _, w1) => (Ok (job_logs_path project state_id joinpaths), w1)
  | (Raise e, w1) => (Raise (OSError e), w1)
  end.
Proof.
  unfold logs_dir, JobLogging.makedirs at 1, bind at 1.
  unfold job_logs_dir. rewrite makedirs_ret_run.
  destruct (OS.makedirs _ w) as [[[]|e] w1] eqn:Hmk; [|done].
  unfold bind, lift, ret. by rewrite (makedirs_again _ _ _ _ Hmk).
Qed.

Lemma logs_dirs_run state_id w :
  logs_dirs project slugify makedirs_dir state_id [] w =
  match make_logs_dirs state_id w with
  | (Ok _, w1) => (Ok (searched state_id w1), w1)
  | (Raise e, w1) => (Raise (OSError e), w1)
  end.
Proof.
  unfold JobLogging.make_logs_dirs, logs_dirs. unfold bind at 1 3.
  rewrite logs_dir_run. fold (primary_dir state_id).
  destruct (OS.makedirs _ w) as [[[]|e] w1]; [|done].
  unfold bind at 1, legacy_logs_dir, bind at 1, run_dir. rewrite makedirs_ret_run.
  destruct (OS.makedirs _ w1) as [[[]|e] w2]; [|done].
  unfold searched, legacy_dir, ret.
  by destruct (OS.exists_ _ w2).
Qed.

Lemma make_logs_dirs_only_makes state_id w r w1 :
  make_logs_dirs state_id w = (r, w1) →
  only_makes (OS.ancestors (makedirs_dir (primary_dir state_id)) ++
              OS.ancestors (makedirs_dir (run_path project "elt"))) w w1.
Proof.
  unfold JobLogging.make_logs_dirs, bind.
  destruct (OS.makedirs _ w) as [[[]|e] w'] eqn:Hmk1.
  - intros Hmk2. eapply only_makes_trans.
    + by eapply makedirs_only_makes.
    + by eapply makedirs_only_makes.
    + intros p. by rewrite elem_of_app.
  - intros [= <- <-]. eapply only_makes_trans.
    + by eapply makedirs_only_makes.
    + apply only_makes_refl.
    + intros p [Hp|Hp]; [|by apply elem_of_nil in Hp]. apply elem_of_app. by left.
Qed.

Lemma make_logs_dirs_files state_id w r w1 :
  make_logs_dirs state_id w = (r, w1) → files w1 = files w.
Proof. intros H. eapply only_makes_files. by eapply make_logs_dirs_only_makes. Qed.

Lemma make_logs_dirs_tree state_id w r w1 :
  tree w → make_logs_dirs state_id w = (r, w1) → tree w1.
Proof.
  intros Htree. unfold JobLogging.make_logs_dirs, bind.
  destruct (OS.makedirs _ w) as [[[]|e] w'] eqn:Hmk1.
  - apply makedirs_tree. by eapply makedirs_tree.
  - intros [= <- <-]. by eapply makedirs_tree.
Qed.

(** The two directories are there once the helpers have returned. *)
Lemma make_logs_dirs_ok state_id w w1 :
  make_logs_dirs state_id w = (Ok tt, w1) →
  is_Some (dirs w1 !! makedirs_dir (primary_dir state_id))
  ∧ is_Some (dirs w1 !! makedirs_dir (run_path project "elt")).
Proof.
  unfold JobLogging.make_logs_dirs, bind.
  destruct (OS.makedirs _ w) as [[[]|e] w'] eqn:Hmk1; [|done].
  intros Hmk2. split; [|by eapply makedirs_ok].
  eapply only_makes_dir; [by eapply makedirs_only_makes|]. by eapply makedirs_ok.
Qed.

(** In a tree, the helpers have nothing to do where both directories
    are there, whatever has happened to the files. *)
Lemma make_logs_dirs_present state_id w :
  tree w →
  is_Some (dirs w !! makedirs_dir (primary_dir state_id)) →
  is_Some (dirs w !! makedirs_dir (run_path project "elt")) →
  make_logs_dirs state_id w = (Ok tt, w).
Proof.
  intros Htree H1 H2. unfold JobLogging.make_logs_dirs, bind.
  rewrite makedirs_present by done. by apply makedirs_present.
Qed.

Lemma stat_exists p w :
  OS.exists_ p w = true → ∃ st, OS.stat p w = (Ok st, w).
Proof.
  rewrite exists_true. unfold OS.stat. intros [[f ->]|[st Hst]]; [by eexists|].
  rewrite Hst. destruct (files w !! p); by eexists.
Qed.

Lemma mapM_ctime_key l w :
  Forall (λ p, OS.exists_ p w = true) l →
  mapM ctime_key l w = (Ok (map (decorate w) l), w).
Proof.
  induction 1 as [|p l Hp _ IH]; [done|].
  simpl. unfold bind at 1. unfold ctime_key at 1.
  destruct (stat_exists _ _ Hp) as [st Hst].
  unfold bind at 1, lift. rewrite Hst. unfold ret at 1.
  fold (mapM ctime_key l). unfold bind. rewrite IH.
  unfold decorate at 2, ctime_of. by rewrite Hst.
Qed.

Lemma found_elem state_id w p :
  p ∈ found state_id w ↔
  OS.exists_ p w = true ∧
  (OS.matches_log (primary_dir state_id) p = true ∨
   OS.exists_ (legacy_dir state_id) w = true ∧
   OS.matches_log (legacy_dir state_id) p = true).
Proof.
  unfold found, searched. rewrite list_elem_of_In, in_flat_map.
  setoid_rewrite <- list_elem_of_In. split.
  - intros (d & Hd & Hp). apply glob_log_elem in Hp as [? ?].
    split; [done|]. apply elem_of_cons in Hd as [->|Hd]; [by left|].
    destruct (OS.exists_ (legacy_dir state_id) w); [|by apply elem_of_nil in Hd].
    apply list_elem_of_singleton in Hd as ->. by right.
  - intros [Hf [Hm|[Hex Hm]]].
    + exists (primary_dir state_id). split; [by left|]. by apply glob_log_elem.
    + exists (legacy_dir state_id). rewrite Hex. split.
      * right. by left.
      * by apply glob_log_elem.
Qed.

(** [get_all_logs], once the directory helpers have done their work. *)
Lemma get_all_logs_run state_id w :
  get_all_logs state_id w =
  match make_logs_dirs state_id w with
  | (Ok _, w1) =>
    (Ok (map snd (sorted_reverse (map (decorate w1) (found state_id w1)))), w1)
  | (Raise e, w1) => (Raise (OSError e), w1)
  end.
Proof.
  unfold JobLogging.get_all_logs, bind at 1. rewrite logs_dirs_run.
  destruct (make_logs_dirs state_id w) as [[[]|e] w1]; [|done].
  unfold bind at 1. fold (found state_id w1).
  unfold bind at 1. rewrite mapM_ctime_key; [done|].
  apply Forall_forall. intros p Hp. by apply found_elem in Hp as [? _].
Qed.

(** The paths come back in decreasing order of their keys. *)
Lemma undecorate_sorted w (l : list (Z * path)) :
  Forall (λ x, fst x = ctime_of w (snd x)) l →
  StronglySorted descending l →
  StronglySorted (λ p q, ctime_of w q ≤ ctime_of w p) (map snd l).
Proof.
  intros Hl. induction 1 as [|x l Hs IH Hx]; simpl; [constructor|].
  apply Forall_cons in Hl as [Hk Hl]. constructor; [by apply IH|].
  apply Forall_fmap, Forall_forall. intros y Hy. simpl.
  rewrite Forall_forall in Hx, Hl. specialize (Hx y Hy). specialize (Hl y Hy).
  unfold descending in Hx. lia.
Qed.



(** In a list sorted by decreasing keys, an element whose key is above
    all the others comes first. *)
Lemma strict_maximum_first (k : path → Z) (l : list path) (x : path) :
  StronglySorted (λ p q, k q ≤ k p) l →
  x ∈ l →
  (∀ y, y ∈ l → y ≠ x → k y < k x) →
  ∃ rest, l = x :: rest.
Proof.
  intros Hs Hx Hmax. destruct l as [|y l]; [by apply elem_of_nil in Hx|].
  destruct (decide (y = x)) as [->|Hne]; [by eexists|].
  apply elem_of_cons in Hx as [->|Hx]; [done|].
  apply StronglySorted_inv in Hs as [_ Hy]. rewrite Forall_forall in Hy.
  specialize (Hy x Hx). simpl in Hy.
  specialize (Hmax y ltac:(by left) Hne). lia.
Qed.

(** [get_latest_log] after the listing: the size check and the read,
    each on the disk as it is at that moment. *)
Lemma get_latest_log_amid_run env1 env2 state_id w logs w1 :
  get_all_logs state_id w = (Ok logs, w1) →
  get_latest_log_amid env1 env2 state_id w =
  match logs with
  | [] => (Raise (MissingJobLogException state_id None), w1)
  | latest_log :: _ =>
    match OS.stat latest_log (env1 w1) with
    | (Raise e, _) =>
      (Raise (on_missing state_id (Some latest_log) (OSError e)), env1 w1)
    | (Ok st, _) =>
      if MAX_FILE_SIZE <? st_size st
      then (Raise SizeThresholdJobLogException, env1 w1)
      else (served state_id latest_log (env2 (env1 w1)), env2 (env1 w1))
    end
  end.
Proof.
  intros Hlogs. unfold JobLogging.get_latest_log_amid.
  unfold try_except at 1, bind at 1. rewrite Hlogs.
  destruct logs as [|latest_log rest]; [done|].
  unfold next_iter, bind at 1, ret at 1.
  unfold try_except at 1, bind at 1, meanwhile.
  unfold bind at 1, lift at 1.
  assert (Hstat : ∀ w', (OS.stat latest_log w').2 = w').
  { intros w'. unfold OS.stat. destruct (files w' !! latest_log); [done|].
    by destruct (dirs w' !! latest_log). }
  destruct (OS.stat latest_log (env1 w1)) as [[st|e] w2] eqn:Hst;
    pose proof (Hstat (env1 w1)) as Hw2; rewrite Hst in Hw2; simpl in Hw2; subst w2.
  2: { by destruct e. }
  destruct (MAX_FILE_SIZE <? st_size st); [done|].
  unfold bind at 1. unfold served, read_text, bind, lift, OS.read, text_of.
  destruct (files (env2 (env1 w1)) !! latest_log) as [f|].
  - by destruct (decode (f_content f)).
  - by destruct (dirs (env2 (env1 w1)) !! latest_log).
Qed.

Lemma get_downloadable_log_run state_id w logs w1 :
  get_all_logs state_id w = (Ok logs, w1) →
  get_downloadable_log state_id w =
  match logs with
  | [] => (Raise (MissingJobLogException state_id None), w1)
  | latest_log :: _ => (Ok (resolve latest_log), w1)
  end.
Proof.
  intros Hlogs. unfold JobLogging.get_downloadable_log.
  unfold try_except, bind at 1. rewrite Hlogs. by destruct logs.
Qed.

Lemma strongly_sorted_weaken {A} (R1 R2 : relation A) (l : list A) :
  (∀ x y, R1 x y → R2 x y) → StronglySorted R1 l → StronglySorted R2 l.
Proof.
  intros HR. induction 1 as [|x l Hs IH Hx]; constructor; [done|].
  eapply Forall_impl; [exact Hx|]. auto.
Qed.

Lemma sorted_logs_perm w (l : list path) :
  map snd (sorted_reverse (map (decorate w) l)) ≡ₚ l.
Proof.
  rewrite sorted_reverse_perm, map_map. simpl. by rewrite map_id.
Qed.

Lemma sorted_logs_sorted w (l : list path) :
  StronglySorted (λ p q, ctime_of w q ≤ ctime_of w p)
    (map snd (sorted_reverse (map (decorate w) l))).
Proof.
  apply undecorate_sorted; [|apply sorted_reverse_sorted].
  rewrite sorted_reverse_perm. apply Forall_forall. intros x Hx.
  apply list_elem_of_fmap in Hx as (p & -> & _). done.
Qed.

Lemma get_all_logs_inv state_id w logs w1 :
  get_all_logs state_id w = (Ok logs, w1) →
  make_logs_dirs state_id w = (Ok tt, w1)
  ∧ logs = map snd (sorted_reverse (map (decorate w1) (found state_id w1))).
Proof.
  rewrite get_all_logs_run.
  destruct (make_logs_dirs state_id w) as [[[]|e] w'] eqn:Hmk; [|done].
  by intros [= <- <-].
Qed.

(** The most recent log is the first of the list. *)
Lemma latest_log_first state_id w w1 latest_log :
  make_logs_dirs state_id w = (Ok tt, w1) →
  latest_log ∈ found state_id w1 →
  (∀ q, q ∈ found state_id w1 → q ≠ latest_log →
        ctime_of w1 q < ctime_of w1 latest_log) →
  ∃ rest, get_all_logs state_id w = (Ok (latest_log :: rest), w1).
Proof.
  intros Hmk Hin Hmax. rewrite get_all_logs_run, Hmk.
  destruct (strict_maximum_first (ctime_of w1)
              (map snd (sorted_reverse (map (decorate w1) (found state_id w1))))
              latest_log) as [rest ->].
  - apply sorted_logs_sorted.
  - by rewrite sorted_logs_perm.
  - intros q Hq. rewrite sorted_logs_perm in Hq. by apply Hmax.
  - by exists rest.
Qed.



(** C2, as far as it holds.  When the directory helpers have returned
    and nothing below the primary directory or the old one is named
    [*.log], no file and no directory, [get_all_logs] returns the empty
    list and both [get_latest_log] and [get_downloadable_log] raise
    [MissingJobLogException].  [get_latest_log] also raises
    [MissingJobLogException], naming the file, when the most recent log
    that the search found, the one whose time stamp is above all the
    others, is removed from the disk before its size is read or, the
    size being acceptable, before it is opened. *)
Theorem missing_job_log state_id w w1 :
  make_logs_dirs state_id w = (Ok tt, w1) →
  ((∀ p, is_Some (files w1 !! p) ∨ is_Some (dirs w1 !! p) →
      OS.matches_log (primary_dir state_id) p = false ∧
      OS.matches_log (legacy_dir state_id) p = false) →
   get_all_logs state_id w = (Ok [], w1)
   ∧ get_latest_log state_id w = (Raise (MissingJobLogException state_id None), w1)
   ∧ get_downloadable_log state_id w
     = (Raise (MissingJobLogException state_id None), w1))
  ∧ (∀ env1 env2 latest_log,
       latest_log ∈ found state_id w1 →
       (∀ q, q ∈ found state_id w1 → q ≠ latest_log →
             ctime_of w1 q < ctime_of w1 latest_log) →
       (gone latest_log (env1 w1) →
        get_latest_log_amid env1 env2 state_id w
        = (Raise (MissingJobLogException state_id (Some latest_log)), env1 w1))
       ∧ (∀ st, OS.stat latest_log (env1 w1) = (Ok st, env1 w1) →
                st_size st ≤ MAX_FILE_SIZE →
                gone latest_log (env2 (env1 w1)) →
                get_latest_log_amid env1 env2 state_id w
                = (Raise (MissingJobLogException state_id (Some latest_log)),
                   env2 (env1 w1)))).
Proof.
  intros Hmk.
  pose proof (get_all_logs_run state_id w) as Hrun. rewrite Hmk in Hrun.
  split.
  - intros Hnone.
    assert (Hfound : found state_id w1 = []).
    { apply elem_of_nil_inv. intros p Hp. apply found_elem in Hp as [Hf Hm].
      apply exists_true in Hf. destruct (Hnone p Hf) as [H1 H2].
      destruct Hm as [Hm|[_ Hm]]; congruence. }
    rewrite Hfound in Hrun. simpl in Hrun.
    unfold JobLogging.get_latest_log.
    by rewrite (get_latest_log_amid_run _ _ _ _ _ _ Hrun),
      (get_downloadable_log_run _ _ _ _ Hrun).
  - intros env1 env2 latest_log Hin Hmax.
    destruct (latest_log_first _ _ _ _ Hmk Hin Hmax) as [rest Hlogs].
    rewrite (get_latest_log_amid_run env1 env2 _ _ _ _ Hlogs). split.
    + intros [Hf Hd]. unfold OS.stat. by rewrite Hf, Hd.
    + intros st -> Hsize [Hf Hd].
      destruct (Z.ltb_spec MAX_FILE_SIZE (st_size st)); [lia|].
      unfold JobLogging.served, OS.read. by rewrite Hf, Hd.
Qed.

(** *** Deleting *)

Lemma unlink_all_lookup ps w q :
  files (unlink_all ps w) !! q = if decide (q ∈ ps) then None else files w !! q.
Proof.
  clear project slugify makedirs_dir resolve decode closes_generator.
  unfold unlink_all. cbn [files set_files]. generalize (files w) as m.
  induction ps as [|p ps IH]; intros m; cbn [foldl].
  - by rewrite decide_False by apply not_elem_of_nil.
  - rewrite IH. destruct (decide (q ∈ ps)) as [Hin|Hnin].
    + by rewrite decide_True by (by right).
    + destruct (decide (q = p)) as [->|Hne].
      * rewrite decide_True by (by left). apply lookup_delete_eq.
      * rewrite decide_False by (rewrite elem_of_cons; tauto).
        by apply lookup_delete_ne.
Qed.

Lemma unlink_all_tree ps w : tree w → tree (unlink_all ps w).
Proof.
  clear project slugify makedirs_dir resolve decode closes_generator.
  intros Htree p st Hp. specialize (Htree p st Hp). unfold in_tree in *.
  apply andb_true_iff in Htree as [Hfile Hparent]. apply andb_true_iff. split; [|done].
  apply negb_true_iff, bool_decide_eq_false in Hfile.
  apply negb_true_iff, bool_decide_eq_false. rewrite unlink_all_lookup.
  destruct (decide (p ∈ ps)); [by intros [? ?]|done].
Qed.

Abbreviation unlink_each :=
  (for_each (λ log_path, lift OSError (OS.unlink log_path))).

(** The loop stops at the first [unlink] that fails, and what was
    deleted before stays deleted. *)
Lemma unlink_each_run logs w r w' :
  unlink_each logs w = (r, w') →
  ∃ done rest,
    logs = done ++ rest ∧ w' = unlink_all done w ∧
    (∀ p, p ∈ done → is_Some (files w !! p)) ∧
    (r = Ok tt ∧ rest = [] ∨
     ∃ p rest' e, rest = p :: rest' ∧ r = Raise (OSError e) ∧
                  OS.unlink p w' = (Raise e, w')).
Proof.
  revert w. induction logs as [|p logs IH]; intros w; simpl.
  - intros [= <- <-]. exists [], [].
    split_and!; [done|by destruct w|by intros p Hp; apply elem_of_nil in Hp|by left].
  - unfold bind at 1, lift at 1.
    destruct (OS.unlink p w) as [[[]|e] w2] eqn:Hp.
    + intros Hrest. apply IH in Hrest as (done & rest & -> & -> & Hfiles & Hr).
      apply unlink_ok in Hp as [Hfile ->].
      exists (p :: done), rest. split_and!; [done|done| |done].
      intros q Hq. apply elem_of_cons in Hq as [->|Hq]; [done|].
      specialize (Hfiles q Hq). simpl in Hfiles.
      destruct (decide (q = p)) as [->|Hne]; [done|].
      by rewrite lookup_delete_ne in Hfiles.
    + intros [= <- <-]. pose proof (unlink_raise _ _ _ _ Hp) as ->.
      exists [], (p :: logs).
      split_and!; [done|by destruct w|by intros q Hq; apply elem_of_nil in Hq|].
      right. by exists p, logs, e.
Qed.

Lemma unlink_each_ok logs w :
  NoDup logs →
  (∀ p, p ∈ logs → is_Some (files w !! p) ∧ refuse w SysUnlink p = None) →
  unlink_each logs w = (Ok tt, unlink_all logs w).
Proof.
  intros Hnd. revert w. induction Hnd as [|p logs Hp Hnd IH]; intros w Hall; simpl.
  - by destruct w.
  - destruct (Hall p) as [[f Hf] Href]; [by left|].
    unfold bind, lift, OS.unlink. rewrite Href, Hf.
    rewrite IH; [done|]. intros q Hq. simpl.
    rewrite lookup_delete_ne by (intros ->; done). apply Hall. by right.
Qed.

(** C9.  [delete_all_logs] unlinks what [get_all_logs] returns, in the
    primary and in the old directory alike.  With nothing to delete it
    returns without error.  When it returns, every listed file is gone,
    the other files are untouched, and, on a disk that is a tree, a
    subsequent [get_all_logs] returns the empty list.  It does return
    when what is listed are regular files, none of them twice, and the
    system refuses no [unlink].  When it raises, the exception is the
    [OSError] of an [unlink] that failed, as it does on a directory
    named [*.log], and the files unlinked before stay deleted.  The
    hypothesis says that the directory helpers succeeded. *)
Theorem delete_all_logs_deletes state_id w w1 logs :
  get_all_logs state_id w = (Ok logs, w1) →
  (∀ p, is_Some (files w !! p) →
        OS.matches_log (primary_dir state_id) p = true ∨
        OS.exists_ (legacy_dir state_id) w1 = true ∧
        OS.matches_log (legacy_dir state_id) p = true →
        p ∈ logs)
  ∧ (logs = [] → delete_all_logs state_id w = (Ok tt, w1))
  ∧ (NoDup logs →
     (∀ p, p ∈ logs → is_Some (files w !! p) ∧ refuse w SysUnlink p = None) →
     delete_all_logs state_id w = (Ok tt, unlink_all logs w1))
  ∧ (∀ w2,
       delete_all_logs state_id w = (Ok tt, w2) →
       (∀ p, p ∈ logs → is_Some (files w !! p) ∧ files w2 !! p = None)
       ∧ (∀ p, p ∉ logs → files w2 !! p = files w !! p)
       ∧ (tree w → get_all_logs state_id w2 = (Ok [], w2)))
  ∧ (∀ e w2,
       delete_all_logs state_id w = (Raise e, w2) →
       ∃ done p rest e',
         logs = done ++ p :: rest
         ∧ e = OSError e'
         ∧ OS.unlink p w2 = (Raise e', w2)
         ∧ (∀ q, q ∈ done → files w2 !! q = None)
         ∧ (∀ q, q ∉ done → files w2 !! q = files w !! q)).
Proof.
  clear resolve decode closes_generator.
  intros Hlogs. pose proof (get_all_logs_inv _ _ _ _ Hlogs) as [Hmk Heq].
  pose proof (make_logs_dirs_files _ _ _ _ Hmk) as Hfiles.
  assert (Hperm : logs ≡ₚ found state_id w1).
  { rewrite Heq. apply sorted_logs_perm. }
  assert (Hdel : ∀ r w2, delete_all_logs state_id w = (r, w2) ↔
                         unlink_each logs w1 = (r, w2)).
  { intros r w2. unfold JobLogging.delete_all_logs, bind. by rewrite Hlogs. }
  split_and!.
  - intros p Hp Hm. rewrite Hperm. apply found_elem. split; [|done].
    apply exists_true. left. by rewrite Hfiles.
  - intros ->. by apply Hdel.
  - intros Hnd Hall. apply Hdel, unlink_each_ok; [done|].
    intros p Hp. destruct (Hall p Hp) as [Hf Href]. split; [by rewrite Hfiles|].
    by rewrite (proj1 (only_makes_frame _ _ _ (make_logs_dirs_only_makes _ _ _ _ Hmk))).
  - intros w2 Hok. apply Hdel in Hok.
    apply unlink_each_run in Hok as (done & rest & Hsplit & -> & Hwere & Hr).
    destruct Hr as [[_ ->]|(? & ? & ? & _ & [=] & _)].
    rewrite app_nil_r in Hsplit. subst done.
    split_and!.
    + intros p Hp. split; [rewrite <- Hfiles; by apply Hwere|].
      by rewrite unlink_all_lookup, decide_True.
    + intros p Hp. by rewrite unlink_all_lookup, decide_False, Hfiles.
    + intros Htree.
      assert (Htree1 : tree w1) by (by eapply make_logs_dirs_tree).
      destruct (make_logs_dirs_ok _ _ _ Hmk) as [Hd1 Hd2].
      pose proof (get_all_logs_run state_id (unlink_all logs w1)) as Hrun.
      rewrite make_logs_dirs_present in Hrun;
        [|by apply unlink_all_tree|done|done].
      rewrite Hrun.
      assert (Hfound : found state_id (unlink_all logs w1) = []); [|by rewrite Hfound].
      apply elem_of_nil_inv. intros p Hp. apply found_elem in Hp as [Hex Hm].
      assert (Hin : p ∈ logs).
      { rewrite Hperm. apply found_elem. split.
        - apply exists_true. apply exists_true in Hex as [Hf|Hd]; [|by right].
          left. rewrite unlink_all_lookup in Hf. by destruct (decide (p ∈ logs)).
        - destruct Hm as [Hm|[Hleg Hm]]; [by left|right; split; [|done]].
          apply exists_true. apply exists_true in Hleg as [Hf|Hd]; [|by right].
          left. rewrite unlink_all_lookup in Hf.
          by destruct (decide (legacy_dir state_id ∈ logs)). }
      (* a listed path was a regular file, and in a tree it is not a
         directory as well: nothing is left of it *)
      apply exists_true in Hex as [Hf|[st Hd]].
      * rewrite unlink_all_lookup, decide_True in Hf by done. by destruct Hf.
      * specialize (Htree1 p st Hd). unfold in_tree in Htree1.
        apply andb_true_iff in Htree1 as [Hfile _].
        apply negb_true_iff, bool_decide_eq_false in Hfile. apply Hfile, Hwere, Hin.
  - intros e w2 Hraise. apply Hdel in Hraise.
    apply unlink_each_run in Hraise as (done & rest & Hsplit & -> & _ & Hr).
    destruct Hr as [[[=] _]|(p & rest' & e' & -> & [= ->] & Hp)].
    exists done, p, rest', e'. split_and!; [done|done|done| |].
    + intros q Hq. by rewrite unlink_all_lookup, decide_True.
    + intros q Hq. by rewrite unlink_all_lookup, decide_False, Hfiles.
Qed.

(** *** [create_log] *)

Abbreviation generate_log_name := (generate_log_name project makedirs_dir).
Abbreviation cm_enter := (cm_enter project makedirs_dir).
Abbreviation cm_exit := (cm_exit project makedirs_dir closes_generator).
Abbreviation with_create_log := (with_create_log project makedirs_dir closes_generator).

Lemma generate_log_name_run state_id run_id file_name w :
  generate_log_name state_id run_id file_name w =
  match OS.makedirs
          (makedirs_dir (job_logs_path project state_id [run_id; file_name])) w with
  | (Ok _, w1) => (Ok (job_logs_path project state_id [run_id; file_name]), w1)
  | (Raise e, w1) => (Raise (OSError e), w1)
  end.
Proof. apply logs_dir_run. Qed.

(** Generating the name of the log makes directories and does nothing
    else. *)
Lemma generate_log_name_only_makes state_id run_id file_name w r w1 :
  generate_log_name state_id run_id file_name w = (r, w1) →
  only_makes
    (OS.ancestors (makedirs_dir (job_logs_path project state_id [run_id; file_name])))
    w w1.
Proof.
  rewrite generate_log_name_run.
  destruct (OS.makedirs _ w) as [[[]|e] w'] eqn:Hmk; intros [= <- <-];
    by eapply makedirs_only_makes.
Qed.

Lemma generate_log_name_frame state_id run_id file_name w r w1 :
  generate_log_name state_id run_id file_name w = (r, w1) →
  refuse w1 = refuse w ∧ opened w1 = opened w ∧ errlog w1 = errlog w.
Proof.
  intros H. apply generate_log_name_only_makes in H.
  by apply only_makes_frame in H as (? & _ & ? & ?).
Qed.

Lemma open_w_raise p w e w' : OS.open_w p w = (Raise e, w') → w' = w.
Proof.
  unfold OS.open_w. destruct (refuse w SysOpenW p); [by intros [= _ <-]|].
  destruct (dirs w !! p); [by intros [= _ <-]|done].
Qed.








End JobLoggingFacts.

(** ** SHA-256: the hexadecimal digest loses nothing of the digest *)

Lemma w32_range x : 0 ≤ SHA256.w32 x < 2 ^ 32.
Proof. unfold SHA256.w32. apply Z.mod_pos_bound. lia. Qed.

Lemma compress_words32 h block : SHA256.words32 (SHA256.compress h block).
Proof.
  unfold SHA256.compress, SHA256.words32, SHA256.add32. cbv zeta.
  cbn [SHA256.ha SHA256.hb SHA256.hc SHA256.hd SHA256.he SHA256.hf SHA256.hg SHA256.hh].
  repeat split; apply w32_range.
Qed.

Lemma digest_words32 data : SHA256.words32 (SHA256.digest data).
Proof.
  unfold SHA256.digest. generalize (SHA256.blocks (length (SHA256.pad (SHA256.bytes_of data)))
    (SHA256.words (length (SHA256.pad (SHA256.bytes_of data))) (SHA256.pad (SHA256.bytes_of data)))).
  intros bl. assert (H0 : SHA256.words32 SHA256.H0).
  { unfold SHA256.words32, SHA256.H0, SHA256.H0_words.
    cbn [SHA256.ha SHA256.hb SHA256.hc SHA256.hd SHA256.he SHA256.hf SHA256.hg SHA256.hh].
    lia. }
  revert H0. generalize SHA256.H0.
  induction bl as [|b bl IH]; intros h Hh; cbn [fold_left]; [done|].
  apply IH, compress_words32.
Qed.

Lemma horner_step (B X x h : Z) :
  0 ≤ x < X → 0 ≤ h < B → 0 ≤ x * B + h < X * B.
Proof. nia. Qed.

Lemma to_Z_range s : SHA256.words32 s → 0 ≤ SHA256.to_Z s < 2 ^ 256.
Proof.
  unfold SHA256.words32, SHA256.to_Z. intros (Ha & Hb & Hc & Hd & He & Hf & Hg & Hh).
  change (2 ^ 256) with
    (2 ^ 32 * 2 ^ 32 * 2 ^ 32 * 2 ^ 32 * 2 ^ 32 * 2 ^ 32 * 2 ^ 32 * 2 ^ 32).
  repeat (apply horner_step; [|done]). done.
Qed.

(** A number and its last digit in base [B]. *)
Lemma horner_inj (B x x' h h' : Z) :
  0 ≤ h < B → 0 ≤ h' < B → x * B + h = x' * B + h' → x = x' ∧ h = h'.
Proof.
  intros Hh Hh' Heq. apply (Z.div_mod_unique B); [left; lia|left; lia|lia].
Qed.

Lemma to_Z_inj s s' :
  SHA256.words32 s → SHA256.words32 s' → SHA256.to_Z s = SHA256.to_Z s' → s = s'.
Proof.
  destruct s as [a b c d e f g h], s' as [a' b' c' d' e' f' g' h'].
  unfold SHA256.words32, SHA256.to_Z.
  cbn [SHA256.ha SHA256.hb SHA256.hc SHA256.hd SHA256.he SHA256.hf SHA256.hg SHA256.hh].
  intros (Ha & Hb & Hc & Hd & He & Hf & Hg & Hh) (Ha' & Hb' & Hc' & Hd' & He' & Hf' & Hg' & Hh') Heq.
  apply horner_inj in Heq as [Heq ->]; [|done|done].
  apply horner_inj in Heq as [Heq ->]; [|done|done].
  apply horner_inj in Heq as [Heq ->]; [|done|done].
  apply horner_inj in Heq as [Heq ->]; [|done|done].
  apply horner_inj in Heq as [Heq ->]; [|done|done].
  apply horner_inj in Heq as [Heq ->]; [|done|done].
  apply horner_inj in Heq as [-> ->]; [|done|done].
  done.
Qed.

Lemma hex_digit_inj (d d' : Z) :
  0 ≤ d < 16 → 0 ≤ d' < 16 → SHA256.hex_digit d = SHA256.hex_digit d' → d = d'.
Proof.
  intros Hd Hd' Heq.
  assert (Hval : ∀ x, 0 ≤ x < 16 →
            Z.of_N (Ascii.N_of_ascii (SHA256.hex_digit x))
            = if x <? 10 then 48 + x else 87 + x).
  { intros x Hx. unfold SHA256.hex_digit.
    rewrite Ascii.N_ascii_embedding; [destruct (x <? 10); lia|].
    destruct (x <? 10); lia. }
  pose proof (Hval d Hd) as H1. pose proof (Hval d' Hd') as H2.
  rewrite Heq in H1. rewrite H1 in H2.
  destruct (Z.ltb_spec d 10), (Z.ltb_spec d' 10); lia.
Qed.

Lemma hex_inj (n : nat) (x y : Z) (acc acc' : string) :
  0 ≤ x < 16 ^ Z.of_nat n → 0 ≤ y < 16 ^ Z.of_nat n →
  SHA256.hex n x acc = SHA256.hex n y acc' → x = y ∧ acc = acc'.
Proof.
  revert x y acc acc'. induction n as [|n IH]; intros x y acc acc' Hx Hy.
  - simpl. intros ->. split; [|done]. change (16 ^ Z.of_nat 0) with 1 in *. lia.
  - rewrite Nat2Z.inj_succ, Z.pow_succ_r in Hx, Hy by lia.
    cbn [SHA256.hex]. intros Heq. apply IH in Heq as [Hdiv Hacc].
    + injection Hacc as Hdigit ->. split; [|done].
      apply hex_digit_inj in Hdigit; [|by apply Z.mod_pos_bound..].
      rewrite (Z.div_mod x 16), (Z.div_mod y 16) by lia. by rewrite Hdiv, Hdigit.
    + split; [by apply Z.div_pos; lia|]. apply Z.div_lt_upper_bound; lia.
    + split; [by apply Z.div_pos; lia|]. apply Z.div_lt_upper_bound; lia.
Qed.

(** Two byte strings have the same hexadecimal digest exactly when
    they have the same digest. *)
Lemma hexdigest_inj (data1 data2 : string) :
  SHA256.hexdigest data1 = SHA256.hexdigest data2 ↔
  SHA256.digest data1 = SHA256.digest data2.
Proof.
  split; [|unfold SHA256.hexdigest; by intros ->].
  unfold SHA256.hexdigest. intros Heq.
  apply hex_inj in Heq as [Heq _].
  - apply to_Z_inj; [apply digest_words32..|done].
  - change (16 ^ Z.of_nat 64) with (2 ^ 256). apply to_Z_range, digest_words32.
  - change (16 ^ Z.of_nat 64) with (2 ^ 256). apply to_Z_range, digest_words32.
Qed.

(** The test vector of the standard. *)
Example sha256_abc :
  SHA256.hexdigest "abc"
  = "ba7816bf8f01cfea414140de5dae2223b00361a396177a9cb410ff61f20015ad".
Proof. vm_compute. reflexivity. Qed.
(** ** The plugin lockfile service *)

Section PluginLockFacts.

Import PluginLocks.

Context {plugins : PluginInterface}.
Variable project : Project.

Abbreviation new_PluginLock := (new_PluginLock project).
Abbreviation service_save := (service_save project).

(** [save] step by step. *)
Lemma save_run self w :
  save self w =
  match OS.open_w (path_ self) w with
  | (Raise e, w1) => (Raise (OSError e), w1)
  | (Ok lockfile, w1) =>
    match OS.write lockfile (lock_text self) w1 with
    | (Ok _, w2) => (Ok tt, OS.close lockfile w2)
    | (Raise e, w2) => (Raise (OSError e), OS.close lockfile w2)
    end
  end.
Proof.
  unfold save, bind at 1, lift at 1.
  destruct (OS.open_w _ w) as [[lockfile|e] w1]; [|done].
  unfold try_finally, bind, lift, ret. fold (lock_text self).
  by destruct (OS.write lockfile _ w1) as [[n|e] w2].
Qed.

(** [save] on a writable path: the lockfile holds the text, whatever was
    there before, and nothing else changes. *)
Lemma save_ok self w :
  writable (path_ self) w → save self w = (Ok tt, saved self w).
Proof.
  intros (Hopen & Hwrite & Hdir). rewrite save_run.
  unfold OS.open_w. rewrite Hopen, Hdir.
  unfold OS.write. cbn [refuse set_opened set_files files]. rewrite Hwrite.
  rewrite lookup_insert_eq. cbn [f_content clock set_opened set_files].
  unfold OS.close, saved. cbn [opened set_opened set_files files dirs refuse clock errlog].
  rewrite insert_insert_eq. simpl. rewrite decide_True by done.
  by destruct w.
Qed.

Lemma saved_lookup self w :
  files (saved self w) !! path_ self
  = Some (File (Stat (Z.of_nat (String.length (lock_text self))) (clock w))
               (lock_text self)).
Proof. unfold saved. simpl. apply lookup_insert_eq. Qed.

Lemma saved_lookup_ne self w p :
  p ≠ path_ self → files (saved self w) !! p = files w !! p.
Proof. intros Hp. unfold saved. simpl. by apply lookup_insert_ne. Qed.

Lemma _load_run {A} self (loader : string → result exn A) w :
  _load self loader w =
  match files w !! path_ self with
  | Some f => (loader (f_content f), w)
  | None => (Raise (OSError (if dirs w !! path_ self is Some _ then EISDIR else ENOENT)), w)
  end.
Proof.
  unfold _load, bind, lift, OS.read. by destruct (files w !! path_ self).
Qed.

(** Without [create], [load] is [_load]: the handler raises again what
    it caught. *)
Lemma load_no_create {A} self (loader : string → result exn A) w :
  load self false loader w = _load self loader w.
Proof.
  unfold load, try_except. destruct (_load self loader w) as [[a|e] w']; [done|].
  destruct e as [[]| |]; done.
Qed.

Lemma load_saved {A} self (loader : string → result exn A) w :
  _load self loader (saved self w) = (loader (lock_text self), saved self w).
Proof. by rewrite _load_run, saved_lookup. Qed.

Lemma new_PluginLock_run plugin w :
  new_PluginLock plugin w =
  (match find_variant (plugin_definition plugin) (plugin_variant plugin) with
   | Ok variant =>
     Ok {| definition := plugin_definition plugin;
           variant := variant;
           path_ := plugin_lock_path project
                      (definition_type (plugin_definition plugin))
                      (definition_name (plugin_definition plugin))
                      (variant_name variant) |}
   | Raise c => Raise (Foreign c)
   end, w).
Proof.
  unfold PluginLocks.new_PluginLock, bind, lift, ret.
  by destruct (find_variant _ _).
Qed.

Lemma sha256_checksum_run self w :
  sha256_checksum self w =
  match files w !! path_ self with
  | Some f => (Ok (SHA256.hexdigest (f_content f)), w)
  | None => (Raise (OSError (if dirs w !! path_ self is Some _ then EISDIR else ENOENT)), w)
  end.
Proof.
  unfold sha256_checksum, bind, lift, ret, OS.read.
  by destruct (files w !! path_ self).
Qed.

Lemma writable_saved self w : writable (path_ self) w → writable (path_ self) (saved self w).
Proof. by intros (? & ? & ?). Qed.

Lemma saved_saved self w : saved self (saved self w) = saved self w.
Proof. unfold saved. simpl. by rewrite insert_insert_eq. Qed.

(** C5. Once [PluginLock] is built for the plugin, the service's [save]
    with [exists_ok=False] raises [LockfileAlreadyExistsError], carrying
    the path of the lock and the plugin, whenever something exists at
    that path, and the disk is left as it was.  With [exists_ok=True],
    or with nothing at the path, it does what [PluginLock.save] does:
    on a writable path, the lockfile then holds the text of the lock,
    whatever it held before, and no other file changes. *)
Theorem service_save_exists_ok plugin self w :
  (new_PluginLock plugin w).1 = Ok self →
  (OS.exists_ (path_ self) w = true →
   service_save plugin false w
   = (Raise (LockfileAlreadyExistsError (path_ self) plugin), w))
  ∧ (∀ exists_ok,
       exists_ok = true ∨ OS.exists_ (path_ self) w = false →
       service_save plugin exists_ok w = save self w)
  ∧ (writable (path_ self) w →
     save self w = (Ok tt, saved self w)
     ∧ f_content <$> files (saved self w) !! path_ self = Some (lock_text self)
     ∧ ∀ p, p ≠ path_ self → files (saved self w) !! p = files w !! p).
Proof.
  intros Hnew.
  assert (Hrun : new_PluginLock plugin w = (Ok self, w)).
  { rewrite new_PluginLock_run in Hnew |- *. simpl in Hnew. by rewrite Hnew. }
  split_and!.
  - intros Hex. unfold PluginLocks.service_save, bind. by rewrite Hrun, Hex.
  - intros exists_ok Hcase. unfold PluginLocks.service_save, bind. rewrite Hrun.
    destruct Hcase as [-> | ->]; [by rewrite andb_false_r|done].
  - intros Hw. split_and!.
    + by apply save_ok.
    + by rewrite saved_lookup.
    + intros p Hp. by apply saved_lookup_ne.
Qed.

(** C6. [save] followed by [load] with the default loader, on a writable
    path: the loader is handed exactly the text that [save] wrote, the
    JSON of the canonical form of the locked definition.  When [json]
    reads that mapping back from its own text and [StandalonePlugin],
    called with a canonical mapping, builds a plugin with that canonical
    form, [load] returns a plugin whose canonical form is the one that
    was written. *)
Theorem save_load_round_trip self w :
  let locked_def := from_variant (variant self) (definition self) in
  writable (path_ self) w →
  json_load (json_dump (canonical locked_def)) = Ok (canonical locked_def) →
  (∀ p, ∃ p', new_StandalonePlugin (canonical p) = Ok p'
              ∧ canonical p' = canonical p) →
  f_content <$> files (saved self w) !! path_ self
  = Some (json_dump (canonical locked_def))
  ∧ (save self >> load self false default_loader) w
    = (default_loader (json_dump (canonical locked_def)), saved self w)
  ∧ ∃ loaded,
      (save self >> load self false default_loader) w = (Ok loaded, saved self w)
      ∧ canonical loaded = canonical locked_def.
Proof.
  intros locked_def Hw Hjson Hnew.
  assert (Hrun : (save self >> load self false default_loader) w
                 = (default_loader (json_dump (canonical locked_def)), saved self w)).
  { unfold bind. rewrite save_ok by done. by rewrite load_no_create, load_saved. }
  split_and!; [by rewrite saved_lookup|done|].
  destruct (Hnew locked_def) as (loaded & Hloaded & Hcanon).
  exists loaded. split; [|done].
  rewrite Hrun. unfold default_loader. by rewrite Hjson, Hloaded.
Qed.

(** C7. With the lockfile absent, [load] without [create] raises
    [FileNotFoundError]; with [create] it calls [save] and loads again,
    which is what [save] followed by a plain [load] does.  On a writable
    path the result is the loader's reading of the text that [save]
    writes, and loading once more gives the same result and the same
    disk. *)
Theorem load_or_initialize {A} self (loader : string → result exn A) w :
  gone (path_ self) w →
  load self false loader w = (Raise FileNotFoundError, w)
  ∧ load self true loader w = (save self >> _load self loader) w
  ∧ load self true loader w = (save self >> load self false loader) w
  ∧ (writable (path_ self) w →
     load self true loader w = (loader (lock_text self), saved self w)
     ∧ load self true loader (load self true loader w).2
       = load self true loader w).
Proof.
  intros [Hfile Hdir].
  assert (Hload : _load self loader w = (Raise FileNotFoundError, w)).
  { by rewrite _load_run, Hfile, Hdir. }
  assert (Hcreate : load self true loader w = (save self >> _load self loader) w).
  { unfold load, try_except. by rewrite Hload. }
  split_and!.
  - by rewrite load_no_create.
  - done.
  - rewrite Hcreate. unfold bind. destruct (save self w) as [[[]|e] w']; [|done].
    by rewrite load_no_create.
  - intros Hw.
    assert (Hfirst : load self true loader w = (loader (lock_text self), saved self w)).
    { rewrite Hcreate. unfold bind. by rewrite save_ok, load_saved. }
    split; [done|]. rewrite Hfirst. simpl.
    unfold load, try_except. rewrite load_saved.
    destruct (loader (lock_text self)) as [a|e] eqn:Hl; [done|].
    destruct e as [[]| |]; try done.
    unfold bind. rewrite save_ok by by apply writable_saved.
    by rewrite saved_saved, load_saved, Hl.
Qed.

(** C10. [load] tells the absence of the lockfile by the
    [FileNotFoundError] it catches around the whole attempt.  So when
    the lockfile is there and the loader itself raises
    [FileNotFoundError] on its content, [load] without [create] raises
    that [FileNotFoundError], exactly what it raises for an absent
    lockfile, and [load] with [create] calls [save] and runs the loader
    again: on a writable path the lockfile is overwritten and the result
    is the loader's reading of the new text. *)
Theorem loader_error_taken_for_absence {A} self (loader : string → result exn A) w f :
  files w !! path_ self = Some f →
  loader (f_content f) = Raise FileNotFoundError →
  load self false loader w = (Raise FileNotFoundError, w)
  ∧ (∀ w', gone (path_ self) w' →
           load self false loader w' = (Raise FileNotFoundError, w'))
  ∧ load self true loader w = (save self >> _load self loader) w
  ∧ (writable (path_ self) w →
     load self true loader w = (loader (lock_text self), saved self w)
     ∧ f_content <$> files (load self true loader w).2 !! path_ self
       = Some (lock_text self)).
Proof.
  intros Hfile Hloader.
  assert (Hload : _load self loader w = (Raise FileNotFoundError, w)).
  { by rewrite _load_run, Hfile, Hloader. }
  assert (Hcreate : load self true loader w = (save self >> _load self loader) w).
  { unfold load, try_except. by rewrite Hload. }
  split_and!.
  - by rewrite load_no_create.
  - intros w' [Hfile' Hdir']. by rewrite load_no_create, _load_run, Hfile', Hdir'.
  - done.
  - intros Hw.
    assert (Hfirst : load self true loader w = (loader (lock_text self), saved self w)).
    { rewrite Hcreate. unfold bind. by rewrite save_ok, load_saved. }
    split; [done|]. rewrite Hfirst. cbn [snd]. by rewrite saved_lookup.
Qed.

(** C8.  [sha256_checksum] is the SHA-256 digest, in hexadecimal, of
    the bytes that the lockfile holds when it is called.  Nothing is
    remembered from one call to the next: a lockfile whose bytes have
    not changed gives the same checksum, an overwritten lockfile gives
    the digest of its new bytes, and a checksum that differs shows that
    the bytes differ.  The checksum changes exactly when the SHA-256
    digest of the bytes does, the hexadecimal form losing nothing of
    it: that the digest changes with the bytes is what SHA-256 is used
    for, and is not a matter of this code. *)
Theorem sha256_checksum_of_current_bytes self w f :
  files w !! path_ self = Some f →
  sha256_checksum self w = (Ok (SHA256.hexdigest (f_content f)), w)
  ∧ (∀ w' f',
       files w' !! path_ self = Some f' →
       (f_content f' = f_content f →
        (sha256_checksum self w').1 = (sha256_checksum self w).1)
       ∧ ((sha256_checksum self w').1 ≠ (sha256_checksum self w).1 →
          f_content f' ≠ f_content f)
       ∧ ((sha256_checksum self w').1 = (sha256_checksum self w).1 ↔
          SHA256.digest (f_content f') = SHA256.digest (f_content f)))
  ∧ (writable (path_ self) w →
     (save self >> sha256_checksum self) w
     = (Ok (SHA256.hexdigest (lock_text self)), saved self w)).
Proof.
  intros Hfile. rewrite sha256_checksum_run, Hfile. split_and!; [done| |].
  - intros w' f' Hfile'. rewrite sha256_checksum_run, Hfile'. cbn [fst]. split_and!.
    + by intros ->.
    + intros Hne Heq. apply Hne. by rewrite Heq.
    + rewrite <- hexdigest_inj. split; [apply Ok_inj|by intros ->].
  - intros Hw. unfold bind. rewrite save_ok by done.
    by rewrite sha256_checksum_run, saved_lookup.
Qed.

End PluginLockFacts.


(** * Further properties of the two services *)

(** ** Job logs: what the queries do to the disk, and what they do
    when a directory helper fails *)

Lemma append_nil_r (s : string) : (s +:+ "")%string = s.
Proof.
  induction s as [|c s IH]; [done|].
  change (String c (s +:+ "") = String c s). by rewrite IH.
Qed.

Lemma append_assoc (s1 s2 s3 : string) :
  ((s1 +:+ s2) +:+ s3)%string = (s1 +:+ (s2 +:+ s3))%string.
Proof.
  induction s1 as [|c s1 IH]; [done|].
  change (String c ((s1 +:+ s2) +:+ s3) = String c (s1 +:+ (s2 +:+ s3))).
  by rewrite IH.
Qed.

Lemma strip_prefix_app (root rest : path) :
  OS.strip_prefix root (root ++ rest) = Some rest.
Proof.
  induction root as [|r root IH]; simpl; [done|]. by rewrite decide_True.
Qed.

Lemma strip_prefix_inv (root p rest : path) :
  OS.strip_prefix root p = Some rest → p = root ++ rest.
Proof.
  revert p. induction root as [|r root IH]; intros p; simpl.
  - by intros [= ->].
  - destruct p as [|c p]; [done|]. destruct (decide (r = c)) as [->|]; [|done].
    intros Hp. by rewrite (IH p Hp).
Qed.

Lemma last_cons_default (c : string) (rest : path) :
  last (c :: rest) = Some (List.last rest c).
Proof.
  assert (Hne : c :: rest ≠ []) by done.
  rewrite (app_removelast_last c Hne) at 1. rewrite last_snoc.
  by destruct rest.
Qed.

(** A path that [glob] matches ends with a name in [.log]. *)
Lemma matches_log_last (root p : path) :
  OS.matches_log root p = true →
  ∃ name, last p = Some name ∧ OS.ends_with ".log" name = true.
Proof.
  unfold OS.matches_log. destruct (OS.strip_prefix root p) as [[|c rest]|] eqn:Hp;
    [done| |done].
  intros Hm. apply strip_prefix_inv in Hp as ->.
  exists (List.last rest c). split; [|done].
  by rewrite last_app, last_cons_default.
Qed.

(** The sort of [sorted] is stable: elements with the same key keep
    their order. *)
Lemma insert_desc_stable {A} (k : Z) (x : Z * A) (l : list (Z * A)) :
  filter (λ y, fst y = k) (JobLogging.insert_desc x l)
  = filter (λ y, fst y = k) (x :: l).
Proof.
  induction l as [|y l IH]; simpl; [done|].
  destruct (Z.leb_spec (fst y) (fst x)) as [Hle|Hlt]; [done|].
  rewrite !filter_cons, IH, !filter_cons.
  repeat case_decide; try done. lia.
Qed.

Lemma sorted_reverse_stable {A} (k : Z) (l : list (Z * A)) :
  filter (λ y, fst y = k) (JobLogging.sorted_reverse l) = filter (λ y, fst y = k) l.
Proof.
  induction l as [|x l IH]; simpl; [done|].
  by rewrite insert_desc_stable, !filter_cons, IH.
Qed.


Section JobLoggingMore.

Import JobLogging.

Variable project : Project.
Variable slugify : string → string.
Variable makedirs_dir : path → path.
Variable resolve : path → string.
Variable decode : string → option string.
Variable closes_generator : bool.

Abbreviation get_all_logs := (get_all_logs project slugify makedirs_dir).
Abbreviation get_latest_log := (get_latest_log project slugify makedirs_dir decode).
Abbreviation get_downloadable_log :=
  (get_downloadable_log project slugify makedirs_dir resolve).
Abbreviation delete_all_logs := (delete_all_logs project slugify makedirs_dir).
Abbreviation primary_dir := (primary_dir project).
Abbreviation legacy_dir := (legacy_dir project slugify).
Abbreviation make_logs_dirs := (make_logs_dirs project makedirs_dir).
Abbreviation found := (found project slugify).
Abbreviation generate_log_name := (generate_log_name project makedirs_dir).
Abbreviation with_create_log := (with_create_log project makedirs_dir closes_generator).

(** X1.  Listing the logs of a job is not a pure query: [logs_dir] is
    decorated with [@makedirs], and so are the methods of the project
    that it and [legacy_logs_dir] call.  So [get_all_logs] makes the
    primary directory of the job and the directory [run_dir("elt")],
    with the directories above them.  That is all it does to the disk:
    no file changes, the directories that were there stay, and a
    directory that appears is one of these.  On a disk that is a tree,
    listing a second time returns the same list and changes nothing
    more. *)
Theorem get_all_logs_only_makes_directories state_id w logs w1 :
  get_all_logs state_id w = (Ok logs, w1) →
  files w1 = files w
  ∧ opened w1 = opened w
  ∧ errlog w1 = errlog w
  ∧ dirs w ⊆ dirs w1
  ∧ is_Some (dirs w1 !! makedirs_dir (primary_dir state_id))
  ∧ is_Some (dirs w1 !! makedirs_dir (run_path project "elt"))
  ∧ (∀ p, is_Some (dirs w1 !! p) →
          is_Some (dirs w !! p)
          ∨ p ∈ OS.ancestors (makedirs_dir (primary_dir state_id))
          ∨ p ∈ OS.ancestors (makedirs_dir (run_path project "elt")))
  ∧ (tree w → get_all_logs state_id w1 = (Ok logs, w1)).
Proof.
  intros Hlogs. pose proof (get_all_logs_inv _ _ _ _ _ _ _ Hlogs) as [Hmk Heq].
  pose proof (make_logs_dirs_only_makes _ _ _ _ _ _ Hmk) as Honly.
  pose proof (only_makes_frame _ _ _ Honly) as (_ & _ & Hopened & Herrlog).
  destruct (make_logs_dirs_ok _ _ _ _ _ Hmk) as [Hd1 Hd2].
  destruct Honly as (Hw1 & Hsub & Hnew).
  split_and!; [by rewrite Hw1|done|done|done|done|done| |].
  - intros p Hp. destruct (Hnew p Hp) as [?|Hin]; [by left|right].
    by apply elem_of_app in Hin.
  - intros Htree. rewrite get_all_logs_run.
    rewrite make_logs_dirs_present; [by rewrite Heq| |done|done].
    by eapply make_logs_dirs_tree.
Qed.

(** X2.  When a directory helper fails, every operation that lists the
    logs fails with it.  [get_all_logs] and [delete_all_logs] raise the
    [OSError].  So do [get_latest_log] and [get_downloadable_log],
    except when the error is a [FileNotFoundError]: their handler for
    it formats a message with [latest_log], which is not assigned yet,
    and what they raise is an [UnboundLocalError], not a
    [MissingJobLogException].  No file is touched; the directories that
    were made before the failure stay. *)
Theorem listing_fails_with_the_directory_helper state_id w e :
  (make_logs_dirs state_id w).1 = Raise e →
  let after := (make_logs_dirs state_id w).2 in
  let raised :=
    if decide (e = ENOENT) then UnboundLocalError "latest_log" else OSError e in
  get_all_logs state_id w = (Raise (OSError e), after)
  ∧ delete_all_logs state_id w = (Raise (OSError e), after)
  ∧ get_latest_log state_id w = (Raise raised, after)
  ∧ get_downloadable_log state_id w = (Raise raised, after)
  ∧ files after = files w
  ∧ opened after = opened w
  ∧ errlog after = errlog w
  ∧ dirs w ⊆ dirs after.
Proof.
  intros Hmk after raised. unfold after.
  destruct (make_logs_dirs state_id w) as [r w1] eqn:Hrun. cbn [fst snd] in *. subst r.
  assert (Hlogs : get_all_logs state_id w = (Raise (OSError e), w1)).
  { by rewrite get_all_logs_run, Hrun. }
  pose proof (make_logs_dirs_only_makes _ _ _ _ _ _ Hrun) as Honly.
  pose proof (only_makes_frame _ _ _ Honly) as (_ & _ & Hopened & Herrlog).
  destruct Honly as (Hw1 & Hsub & _).
  split_and!; [done| | | |by rewrite Hw1|done|done|done].
  - unfold JobLogging.delete_all_logs, bind. by rewrite Hlogs.
  - unfold JobLogging.get_latest_log, get_latest_log_amid, try_except, bind at 1.
    rewrite Hlogs. unfold raise, raised. by destruct e.
  - unfold JobLogging.get_downloadable_log, try_except, bind at 1.
    rewrite Hlogs. unfold raise, raised. by destruct e.
Qed.

(** X3.  The fallback of [create_log] on the null device covers the
    opening of the file only.  The name of the log is generated, and its
    directory made, before the [try]: when that fails, the [with]
    statement raises the error, its block never runs, and nothing is
    opened, logged or written: the disk is as it was, but for the
    directories that were made before the failure. *)
Theorem create_log_does_not_cover_the_directory {A} state_id run_id file_name
    (block : sink → M exn A) w e :
  (generate_log_name state_id run_id file_name w).1 = Raise e →
  let after := (generate_log_name state_id run_id file_name w).2 in
  with_create_log state_id run_id file_name block w = (Raise e, after)
  ∧ after = set_dirs (dirs after) w
  ∧ dirs w ⊆ dirs after
  ∧ files after = files w
  ∧ opened after = opened w
  ∧ errlog after = errlog w.
Proof.
  intros Hname after. unfold after.
  destruct (generate_log_name state_id run_id file_name w) as [r w1] eqn:Hrun.
  cbn [fst snd] in *. subst r.
  pose proof (generate_log_name_only_makes _ _ _ _ _ _ _ _ Hrun) as Honly.
  pose proof (only_makes_frame _ _ _ Honly) as (_ & _ & Hopened & Herrlog).
  split_and!;
    [|by destruct Honly|by destruct Honly as (_ & ? & _)
     |by eapply only_makes_files|done|done].
  unfold JobLogging.with_create_log, bind at 1, JobLogging.cm_enter, bind at 1.
  simpl. unfold bind at 1. by rewrite Hrun.
Qed.

(** X4.  Logs with the same time stamp come in the order in which they
    were found: those of the primary directory before those of the old
    one, each group in the order of its directory walk. *)
Theorem get_all_logs_keeps_the_order_of_ties state_id w logs w1 :
  get_all_logs state_id w = (Ok logs, w1) →
  ∀ t, filter (λ p, ctime_of w1 p = t) logs
       = filter (λ p, ctime_of w1 p = t)
           (OS.glob_log (primary_dir state_id) w1 ++
            if OS.exists_ (legacy_dir state_id) w1
            then OS.glob_log (legacy_dir state_id) w1 else []).
Proof.
  intros Hlogs t. pose proof (get_all_logs_inv _ _ _ _ _ _ _ Hlogs) as [Hmk ->].
  assert (Hfound : found state_id w1
                   = OS.glob_log (primary_dir state_id) w1 ++
                     if OS.exists_ (legacy_dir state_id) w1
                     then OS.glob_log (legacy_dir state_id) w1 else []).
  { unfold JobLogging.found, searched. simpl.
    destruct (OS.exists_ _ w1); simpl; by rewrite ?app_nil_r. }
  rewrite <- Hfound.
  assert (Hmap : ∀ l : list (Z * path),
            Forall (λ x, fst x = ctime_of w1 (snd x)) l →
            filter (λ p, ctime_of w1 p = t) (map snd l)
            = map snd (filter (λ x, fst x = t) l)).
  { induction 1 as [|x l Hx _ IH]; [done|].
    simpl. rewrite !filter_cons, IH. rewrite <- Hx.
    by destruct (decide (fst x = t)). }
  assert (Hdec : Forall (λ x, fst x = ctime_of w1 (snd x))
                        (map (decorate w1) (found state_id w1))).
  { apply Forall_forall. intros x Hx. by apply list_elem_of_fmap in Hx as (p & -> & _). }
  rewrite Hmap by (by rewrite sorted_reverse_perm).
  rewrite sorted_reverse_stable, <- Hmap by done.
  rewrite map_map. simpl. by rewrite map_id.
Qed.

Lemma write_all_cons (f : sink) (c : string) (chunks : list string) w :
  write_all f (c :: chunks) w =
  match OS.write f c w with
  | (Ok _, w') => write_all f chunks w'
  | (Raise e, w') => (Raise (OSError e), w')
  end.
Proof.
  unfold write_all. simpl. unfold bind, lift, ret.
  by destruct (OS.write f c w) as [[n|e] w'].
Qed.

(** What the chunks add up to. *)
Lemma write_all_run (p : path) (chunks : list string) (before : string) w :
  files w !! p = Some (File (Stat (Z.of_nat (String.length before)) (clock w)) before) →
  refuse w SysWrite p = None →
  write_all (SinkFile p) chunks w
  = (Ok tt,
     let text := (before +:+ foldr String.append "" chunks)%string in
     set_files (<[p := File (Stat (Z.of_nat (String.length text)) (clock w)) text]>
                  (files w)) w).
Proof.
  revert before w. induction chunks as [|c chunks IH]; intros before w Hfile Href.
  - cbn [foldr]. cbv zeta. rewrite append_nil_r, insert_id by done. by destruct w.
  - rewrite write_all_cons. unfold OS.write. rewrite Href, Hfile. cbn [f_content].
    rewrite (IH (before +:+ c)%string).
    + cbn [files clock set_files dirs refuse opened errlog foldr]. cbv zeta.
      by rewrite insert_insert_eq, append_assoc.
    + cbn [files clock set_files]. by rewrite lookup_insert_eq.
    + done.
Qed.

(** The [with] statement around a block that writes chunks, when the
    log can be opened and written. *)
Lemma with_create_log_write_all state_id run_id file_name chunks w p w1 :
  generate_log_name state_id run_id file_name w = (Ok p, w1) →
  writable p w1 →
  with_create_log state_id run_id file_name (λ f, write_all f chunks) w
  = (Ok (Some tt),
     let text := foldr String.append "" chunks in
     set_files (<[p := File (Stat (Z.of_nat (String.length text)) (clock w1)) text]>
                  (files w1)) w1).
Proof.
  intros Hname (Hopen & Hwrite & Hdir).
  unfold JobLogging.with_create_log, bind at 1, JobLogging.cm_enter, bind at 1.
  simpl. unfold bind at 1. rewrite Hname.
  unfold try_except, bind at 1, lift at 1, OS.open_w. rewrite Hopen, Hdir.
  cbn [ret fst snd].
  rewrite (write_all_run p chunks "").
  - unfold bind, ret, JobLogging.cm_exit, bind, resume, ret, OS.close.
    cbn [files clock set_files dirs refuse opened errlog set_opened OS.remove_first].
    rewrite decide_True by done. rewrite insert_insert_eq. by destruct w1.
  - cbn [files clock set_files set_opened]. by rewrite lookup_insert_eq.
  - done.
Qed.

(** X5.  When the log can be opened and written, the block under
    [create_log] writes into the file of the generated name: when the
    [with] statement is left, the file holds the chunks the block
    wrote, in order, and nothing of what it held before, since it is
    opened with mode [w]; the file object is closed, nothing is logged,
    and no other file has changed. *)
Theorem create_log_writes_the_log state_id run_id file_name chunks w p w1 :
  generate_log_name state_id run_id file_name w = (Ok p, w1) →
  writable p w1 →
  let after :=
    (with_create_log state_id run_id file_name (λ f, write_all f chunks) w).2 in
  (with_create_log state_id run_id file_name (λ f, write_all f chunks) w).1
  = Ok (Some tt)
  ∧ f_content <$> files after !! p = Some (foldr String.append "" chunks)
  ∧ (∀ q, q ≠ p → files after !! q = files w !! q)
  ∧ opened after = opened w
  ∧ errlog after = errlog w.
Proof.
  intros Hname Hw after. unfold after.
  rewrite (with_create_log_write_all _ _ _ _ _ _ _ Hname Hw). cbn [fst snd].
  pose proof (generate_log_name_frame _ _ _ _ _ _ _ _ Hname) as (_ & Hopened & Herrlog).
  assert (Hfiles : files w1 = files w).
  { eapply only_makes_files. by eapply generate_log_name_only_makes. }
  cbn [files set_files opened errlog]. split_and!; [done| | |done|done].
  - by rewrite lookup_insert_eq.
  - intros q Hq. by rewrite lookup_insert_ne, Hfiles.
Qed.


(** X7.  What [create_log] writes, [get_latest_log] reads back as text.
    Take a file name in [.log], a log that can be opened and written,
    and a disk on which, once the block has written its chunks, the new
    log is more recent than whatever else the search finds.  If the
    bytes written are not more than [MAX_FILE_SIZE], [get_latest_log]
    returns them as the codec of the locale decodes them, with every
    [\r\n] and [\r] turned into [\n], and raises [UnicodeDecodeError]
    when they cannot be decoded; [get_downloadable_log] returns the
    path of the new log. *)
Theorem create_log_then_get_latest_log state_id run_id file_name chunks w p w1 w3 w4 :
  OS.matches_log (primary_dir state_id) p = true →
  generate_log_name state_id run_id file_name w = (Ok p, w1) →
  writable p w1 →
  Z.of_nat (String.length (foldr String.append "" chunks)) ≤ MAX_FILE_SIZE →
  (with_create_log state_id run_id file_name (λ f, write_all f chunks) w).2 = w3 →
  make_logs_dirs state_id w3 = (Ok tt, w4) →
  (∀ q, q ∈ found state_id w4 → q ≠ p → ctime_of w4 q < clock w) →
  get_latest_log state_id w3 = (text_of decode (foldr String.append "" chunks), w4)
  ∧ (∀ text, decode (foldr String.append "" chunks) = Some text →
             get_latest_log state_id w3 = (Ok (OS.universal_newlines text), w4))
  ∧ get_downloadable_log state_id w3 = (Ok (resolve p), w4).
Proof.
  intros Hlog Hname Hw Hsize Hwith Hmk Hclock.
  rewrite (with_create_log_write_all _ _ _ _ _ _ _ Hname Hw) in Hwith.
  cbn [snd] in Hwith. cbv zeta in Hwith.
  set (text := foldr String.append "" chunks) in *.
  pose proof (generate_log_name_only_makes _ _ _ _ _ _ _ _ Hname) as Honly.
  pose proof (only_makes_files _ _ _ Honly) as Hfiles1.
  pose proof (only_makes_frame _ _ _ Honly) as (_ & Hclock1 & _).
  assert (Hfiles4 : files w4
                    = <[p := File (Stat (Z.of_nat (String.length text)) (clock w)) text]>
                        (files w)).
  { rewrite (make_logs_dirs_files _ _ _ _ _ _ Hmk), <- Hwith. cbn [files set_files].
    by rewrite Hfiles1, Hclock1. }
  assert (Hnew : files w4 !! p
                 = Some (File (Stat (Z.of_nat (String.length text)) (clock w)) text)).
  { by rewrite Hfiles4, lookup_insert_eq. }
  assert (Hstat : OS.stat p w4
                  = (Ok (Stat (Z.of_nat (String.length text)) (clock w)), w4)).
  { unfold OS.stat. by rewrite Hnew. }
  assert (Hin : p ∈ found state_id w4).
  { apply found_elem. split; [|by left]. apply exists_true. left. by rewrite Hnew. }
  assert (Hkey : ctime_of w4 p = clock w).
  { unfold ctime_of. by rewrite Hstat. }
  destruct (latest_log_first project slugify makedirs_dir state_id w3 w4 p Hmk Hin)
    as [rest Hlogs].
  { intros q Hq Hne. rewrite Hkey. by apply Hclock. }
  assert (Hlatest : get_latest_log state_id w3 = (text_of decode text, w4)).
  { unfold JobLogging.get_latest_log.
    rewrite (get_latest_log_amid_run _ _ _ _ _ _ _ _ _ _ Hlogs). simpl.
    rewrite Hstat. cbn [st_size].
    destruct (Z.ltb_spec MAX_FILE_SIZE (Z.of_nat (String.length text))); [lia|].
    unfold served, OS.read. by rewrite Hnew. }
  split_and!; [done| |].
  - intros t Ht. rewrite Hlatest. unfold text_of. by rewrite Ht.
  - by rewrite (get_downloadable_log_run _ _ _ _ _ _ _ _ Hlogs).
Qed.

(** X8.  The search is for [*.log] whatever the file name that
    [create_log] was given: a log written under a file name that does
    not end in [.log] is never listed, so [get_latest_log],
    [get_downloadable_log] and [delete_all_logs] never see it. *)
Theorem other_file_names_are_never_listed state_id run_id file_name w logs w1 :
  last (job_logs_path project state_id [run_id; file_name]) = Some file_name →
  OS.ends_with ".log" file_name = false →
  get_all_logs state_id w = (Ok logs, w1) →
  job_logs_path project state_id [run_id; file_name] ∉ logs.
Proof.
  intros Hlast Hname Hlogs Hin.
  pose proof (get_all_logs_inv _ _ _ _ _ _ _ Hlogs) as [_ ->].
  rewrite sorted_logs_perm in Hin. apply found_elem in Hin as [_ Hm].
  assert (Hends : ∃ name, last (job_logs_path project state_id [run_id; file_name])
                          = Some name ∧ OS.ends_with ".log" name = true).
  { destruct Hm as [Hm|[_ Hm]]; by eapply matches_log_last. }
  destruct Hends as (name & Hname' & Hends). congruence.
Qed.

End JobLoggingMore.
(** ** Lockfiles: failures of [save], what [load] leaves alone, and the
    path of a lock *)

Section PluginLockMore.

Import PluginLocks.

Context {plugins : PluginInterface}.
Variable project : Project.

Abbreviation new_PluginLock := (new_PluginLock project).
Abbreviation service_save := (service_save project).

Lemma new_PluginLock_pure plugin w w' :
  new_PluginLock plugin w' = ((new_PluginLock plugin w).1, w').
Proof. by rewrite !new_PluginLock_run. Qed.

(** X9. [save] is not atomic.  When the lockfile cannot be opened,
    nothing changes.  But the file is opened with mode [w] before
    anything is written: when the write then fails, [save] raises the
    error and leaves an empty lockfile in place of what was there, the
    file object closed.  The empty lockfile counts as a lockfile: the
    service's [save] without [exists_ok] refuses to write it again. *)
Theorem save_is_not_atomic plugin self w :
  (new_PluginLock plugin w).1 = Ok self →
  (∀ e, (OS.open_w (path_ self) w).1 = Raise e →
        save self w = (Raise (OSError e), w))
  ∧ (∀ e,
       refuse w SysOpenW (path_ self) = None →
       dirs w !! path_ self = None →
       refuse w SysWrite (path_ self) = Some e →
       let after := (save self w).2 in
       (save self w).1 = Raise (OSError e)
       ∧ f_content <$> files after !! path_ self = Some ""
       ∧ (∀ p, p ≠ path_ self → files after !! p = files w !! p)
       ∧ opened after = opened w
       ∧ service_save plugin false after
         = (Raise (LockfileAlreadyExistsError (path_ self) plugin), after)).
Proof.
  intros Hnew. split.
  - intros e Hopen. rewrite save_run.
    destruct (OS.open_w (path_ self) w) as [[f|e'] w1] eqn:Hf; simpl in Hopen; [done|].
    injection Hopen as ->. by apply open_w_raise in Hf as ->.
  - intros e Hopen Hdir Hwrite after. unfold after. rewrite save_run.
    unfold OS.open_w. rewrite Hopen, Hdir.
    unfold OS.write. cbn [refuse set_opened set_files]. rewrite Hwrite.
    unfold OS.close. cbn [fst snd files opened set_opened set_files OS.remove_first].
    rewrite decide_True by done.
    split_and!; [done| | |done|].
    + by rewrite lookup_insert_eq.
    + intros p Hp. by rewrite lookup_insert_ne.
    + unfold PluginLocks.service_save, bind. rewrite (new_PluginLock_pure plugin w), Hnew.
      unfold OS.exists_. cbn [files set_opened set_files].
      rewrite lookup_insert_eq. rewrite bool_decide_eq_true_2 by (left; by eexists).
      done.
Qed.

(** X10. [load] writes only to make up for a missing lockfile.  When the
    lockfile is there and the loader does not raise [FileNotFoundError],
    [load] returns what the loader makes of the file, or raises what the
    loader raises, and leaves the disk as it is, with [create] as
    without: [create=True] never overwrites a lockfile that could be
    read. *)
Theorem load_leaves_a_readable_lockfile_alone {A} self
    (loader : string → result exn A) w f :
  files w !! path_ self = Some f →
  loader (f_content f) ≠ Raise FileNotFoundError →
  ∀ create, load self create loader w = (loader (f_content f), w).
Proof.
  intros Hfile Hloader create. unfold load, try_except.
  rewrite _load_run, Hfile.
  destruct (loader (f_content f)) as [a|e]; [done|].
  destruct e as [[]| |]; done.
Qed.

(** X11. Something other than a regular file at the path of the lock.
    For a directory, [exists()] holds, so the service's [save] without
    [exists_ok] raises [LockfileAlreadyExistsError]; with [exists_ok] it
    raises the [IsADirectoryError] of [open].  [load] and the checksum
    raise that error too, and [load] does so even with [create]: only a
    [FileNotFoundError] makes it call [save].  The disk is unchanged in
    every case. *)
Theorem directory_at_the_lock_path {A} plugin self
    (loader : string → result exn A) w st :
  (new_PluginLock plugin w).1 = Ok self →
  dirs w !! path_ self = Some st →
  files w !! path_ self = None →
  refuse w SysOpenW (path_ self) = None →
  service_save plugin false w
  = (Raise (LockfileAlreadyExistsError (path_ self) plugin), w)
  ∧ service_save plugin true w = (Raise (OSError EISDIR), w)
  ∧ (∀ create, load self create loader w = (Raise (OSError EISDIR), w))
  ∧ sha256_checksum self w = (Raise (OSError EISDIR), w).
Proof.
  intros Hnew Hdir Hfile Hopen.
  assert (Hex : OS.exists_ (path_ self) w = true).
  { unfold OS.exists_. rewrite bool_decide_eq_true_2; [done|]. right. by eexists. }
  split_and!.
  - unfold PluginLocks.service_save, bind. by rewrite (new_PluginLock_pure plugin w), Hnew, Hex.
  - unfold PluginLocks.service_save, bind. rewrite (new_PluginLock_pure plugin w), Hnew, Hex.
    cbn [negb andb]. rewrite save_run. unfold OS.open_w. by rewrite Hopen, Hdir.
  - intros create. unfold load, try_except. by rewrite _load_run, Hfile, Hdir.
  - by rewrite sha256_checksum_run, Hfile, Hdir.
Qed.

(** X12. The path of a lock is made of the type and the name of the
    definition and of the name of the variant, and of nothing else.  Two
    plugins that agree on these three share their lockfile: after the
    first is locked, locking the second without [exists_ok] raises
    [LockfileAlreadyExistsError], carrying the second plugin, and the
    lockfile still holds the lock of the first. *)
Theorem plugins_with_the_same_names_share_a_lockfile plugin1 plugin2 self1 self2 w :
  (new_PluginLock plugin1 w).1 = Ok self1 →
  (new_PluginLock plugin2 w).1 = Ok self2 →
  definition_type (definition self1) = definition_type (definition self2) →
  definition_name (definition self1) = definition_name (definition self2) →
  variant_name (variant self1) = variant_name (variant self2) →
  gone (path_ self1) w →
  writable (path_ self1) w →
  path_ self1 = path_ self2
  ∧ (service_save plugin1 false >> service_save plugin2 false) w
    = (Raise (LockfileAlreadyExistsError (path_ self1) plugin2), saved self1 w)
  ∧ f_content <$> files (saved self1 w) !! path_ self2 = Some (lock_text self1).
Proof.
  intros Hnew1 Hnew2 Htype Hname Hvariant [Hfile Hdir] Hw.
  assert (Hpath : path_ self1 = path_ self2).
  { rewrite new_PluginLock_run in Hnew1, Hnew2. cbn [fst] in Hnew1, Hnew2.
    destruct (find_variant _ (plugin_variant plugin1)) as [v1|]; [|done].
    destruct (find_variant _ (plugin_variant plugin2)) as [v2|]; [|done].
    injection Hnew1 as <-. injection Hnew2 as <-. cbn in *. congruence. }
  split_and!; [done| |by rewrite <- Hpath, saved_lookup].
  unfold bind at 1. unfold PluginLocks.service_save at 1, bind.
  rewrite (new_PluginLock_pure plugin1 w), Hnew1.
  assert (Hex : OS.exists_ (path_ self1) w = false).
  { unfold OS.exists_. rewrite bool_decide_eq_false_2; [done|].
    rewrite Hfile, Hdir. by intros [[? ?]|[? ?]]. }
  rewrite Hex. cbn [andb]. rewrite save_ok by done.
  unfold PluginLocks.service_save, bind.
  rewrite (new_PluginLock_pure plugin2 w), Hnew2, <- Hpath.
  unfold OS.exists_. rewrite bool_decide_eq_true_2; [done|].
  left. rewrite saved_lookup. by eexists.
Qed.

(** X13. On a writable path, the three ways of writing the lockfile,
    [PluginLock.save], the service's [save] with [exists_ok], and
    [load] with [create] when there is no lockfile yet, leave the same
    lockfile.  Its checksum is the digest of the text of the lock, and
    writing the lockfile again, over itself, changes neither the disk
    nor the checksum. *)
Theorem lockfile_is_the_same_however_written {A} plugin self
    (loader : string → result exn A) w :
  (new_PluginLock plugin w).1 = Ok self →
  writable (path_ self) w →
  save self w = (Ok tt, saved self w)
  ∧ service_save plugin true w = (Ok tt, saved self w)
  ∧ (gone (path_ self) w → (load self true loader w).2 = saved self w)
  ∧ sha256_checksum self (saved self w)
    = (Ok (SHA256.hexdigest (lock_text self)), saved self w)
  ∧ service_save plugin true (saved self w) = (Ok tt, saved self w).
Proof.
  intros Hnew Hw.
  assert (Hservice : ∀ w', writable (path_ self) w' →
            service_save plugin true w' = (Ok tt, saved self w')).
  { intros w' Hw'. unfold PluginLocks.service_save, bind.
    rewrite (new_PluginLock_pure plugin w), Hnew. rewrite andb_false_r. by apply save_ok. }
  split_and!.
  - by apply save_ok.
  - by apply Hservice.
  - intros [Hfile Hdir]. unfold load, try_except.
    rewrite _load_run, Hfile, Hdir. unfold bind.
    by rewrite save_ok, load_saved.
  - by rewrite sha256_checksum_run, saved_lookup.
  - rewrite Hservice by by apply writable_saved. by rewrite saved_saved.
Qed.

End PluginLockMore.


(** ** The properties at work on the concrete project *)

Import Scenario.

Abbreviation get_all_logs := (JobLogging.get_all_logs project slugify makedirs_dir).
Abbreviation get_latest_log :=
  (JobLogging.get_latest_log project slugify makedirs_dir decode).
Abbreviation get_latest_log_amid :=
  (JobLogging.get_latest_log_amid project slugify makedirs_dir decode).
Abbreviation get_downloadable_log :=
  (JobLogging.get_downloadable_log project slugify makedirs_dir resolve).
Abbreviation delete_all_logs := (JobLogging.delete_all_logs project slugify makedirs_dir).
Abbreviation make_logs_dirs := (JobLogging.make_logs_dirs project makedirs_dir).
Abbreviation found := (JobLogging.found project slugify).
Abbreviation generate_log_name := (JobLogging.generate_log_name project makedirs_dir).
Abbreviation with_create_log :=
  (JobLogging.with_create_log project makedirs_dir closes_generator).

(** A property of everything there is on a disk is a property of the
    entries of its listing, which can be checked by running it. *)
Lemma every_entry (P : path → Prop) (w : world) :
  Forall P (OS.entries w) →
  ∀ p, is_Some (files w !! p) ∨ is_Some (dirs w !! p) → P p.
Proof.
  intros Hall p Hp. rewrite Forall_forall in Hall. by apply Hall, entries_elem.
Qed.

(** A property of what the search finds, checked on the list. *)
Lemma every_found (P : path → Prop) (l : list path) :
  Forall P l → ∀ q, q ∈ l → P q.
Proof. intros Hall q Hq. rewrite Forall_forall in Hall. by apply Hall. Qed.

(** The helpers have nothing to do for the job [dev], and the listing
    of its logs. *)
Lemma dev_logs :
  make_logs_dirs "dev" disk = (Ok tt, disk)
  ∧ get_all_logs "dev" disk
    = (Ok [ ["logs"; "elt"; "dev"; "run-2"; "elt.log"];
            ["logs"; "elt"; "dev"; "run-1"; "elt.log"];
            ["run"; "elt"; "dev"; "old-run"; "elt.log"] ], disk).
Proof.
  assert (Hmk : make_logs_dirs "dev" disk = (Ok tt, disk)).
  { apply make_logs_dirs_present; [|by eexists..].
    apply (bool_decide_unpack _). vm_compute. exact I. }
  split; [exact Hmk|].
  rewrite get_all_logs_run, Hmk. vm_compute. reflexivity.
Qed.




(** The job [staging] never ran; and the latest log of [dev] is removed
    by another process right after the listing. *)
Lemma missing_job_log_witness :
  (get_all_logs "staging" disk).1 = Ok []
  ∧ (get_latest_log "staging" disk).1
    = Raise (JobLogging.MissingJobLogException "staging" None)
  ∧ (get_downloadable_log "staging" disk).1
    = Raise (JobLogging.MissingJobLogException "staging" None)
  ∧ (get_latest_log_amid
       (JobLogging.unlink_all [ ["logs"; "elt"; "dev"; "run-2"; "elt.log"] ]) id
       "dev" disk).1
    = Raise (JobLogging.MissingJobLogException "dev"
               (Some ["logs"; "elt"; "dev"; "run-2"; "elt.log"])).
Proof.
  assert (Hmk : make_logs_dirs "staging" disk
                = (Ok tt, (make_logs_dirs "staging" disk).2))
    by (vm_compute; reflexivity).
  destruct (missing_job_log project slugify makedirs_dir resolve decode _ _ _ Hmk)
    as [Hzero _].
  destruct Hzero as (Hall & Hlatest & Hpath).
  { apply every_entry. apply (bool_decide_unpack _). vm_compute. exact I. }
  rewrite Hall, Hlatest, Hpath. split_and!; [done|done|done|].
  assert (Hmk' : make_logs_dirs "dev" disk = (Ok tt, disk)).
  { apply make_logs_dirs_present; [|by eexists..].
    apply (bool_decide_unpack _). vm_compute. exact I. }
  destruct (missing_job_log project slugify makedirs_dir resolve decode _ _ _ Hmk')
    as [_ Hrace].
  destruct (Hrace (JobLogging.unlink_all [ ["logs"; "elt"; "dev"; "run-2"; "elt.log"] ]) id
              ["logs"; "elt"; "dev"; "run-2"; "elt.log"]) as [Hgone _].
  { apply (bool_decide_unpack _). vm_compute. exact I. }
  { apply (every_found
             (λ q, q ≠ ["logs"; "elt"; "dev"; "run-2"; "elt.log"] →
                   JobLogging.ctime_of disk q
                   < JobLogging.ctime_of disk ["logs"; "elt"; "dev"; "run-2"; "elt.log"])).
    apply (bool_decide_unpack _). vm_compute. exact I. }
  rewrite Hgone; [done|]. split; vm_compute; reflexivity.
Defined.

(** C2, as the specification words it, fails.  The job [staging] has no
    log file on either of these disks.  On the first, a directory is
    named like a log: [get_all_logs] returns it, [get_latest_log]
    raises [IsADirectoryError] and [get_downloadable_log] returns its
    path.  On the second, the directory [run] cannot be made, and the
    three of them raise the [PermissionError] of [os.makedirs]. *)
Lemma missing_job_log_not_raised :
  (filter (λ p, OS.matches_log ["logs"; "elt"; "staging"] p
                || OS.matches_log ["run"; "elt"; "staging"] p = true)
      (map fst (map_to_list (files archive_disk))) = []
   ∧ (get_all_logs "staging" archive_disk).1
     = Ok [ ["logs"; "elt"; "staging"; "old.log"] ]
   ∧ (get_latest_log "staging" archive_disk).1 = Raise (JobLogging.OSError EISDIR)
   ∧ (get_downloadable_log "staging" archive_disk).1
     = Ok "/project/logs/elt/staging/old.log")
  ∧ (files no_run_disk = ∅
     ∧ (get_all_logs "staging" no_run_disk).1 = Raise (JobLogging.OSError EACCES)
     ∧ (get_latest_log "staging" no_run_disk).1 = Raise (JobLogging.OSError EACCES)
     ∧ (get_downloadable_log "staging" no_run_disk).1
       = Raise (JobLogging.OSError EACCES)).
Proof.
  split; split_and!; vm_compute; reflexivity.
Qed.


(** Deleting the logs of [dev] leaves the notes and the other job's log,
    and lists nothing afterwards. *)
Lemma delete_all_logs_deletes_witness :
  (delete_all_logs "dev" disk).1 = Ok tt
  ∧ map fst (map_to_list (files (delete_all_logs "dev" disk).2))
    = [ ["logs"; "elt"; "dev"; "run-2"; "notes.txt"];
        ["logs"; "elt"; "prod"; "run-9"; "elt.log"] ]
  ∧ (get_all_logs "dev" (delete_all_logs "dev" disk).2).1 = Ok [].
Proof.
  assert (Hlogs : get_all_logs "dev" disk
                  = (Ok [ ["logs"; "elt"; "dev"; "run-2"; "elt.log"];
                          ["logs"; "elt"; "dev"; "run-1"; "elt.log"];
                          ["run"; "elt"; "dev"; "old-run"; "elt.log"] ], disk)).
  { destruct dev_logs as [_ ->]. done. }
  destruct (delete_all_logs_deletes project slugify makedirs_dir _ _ _ _ Hlogs)
    as (_ & _ & Hok & Hafter & _).
  assert (Hrun : delete_all_logs "dev" disk
                 = (Ok tt, JobLogging.unlink_all
                             [ ["logs"; "elt"; "dev"; "run-2"; "elt.log"];
                               ["logs"; "elt"; "dev"; "run-1"; "elt.log"];
                               ["run"; "elt"; "dev"; "old-run"; "elt.log"] ] disk)).
  { apply Hok.
    - apply (bool_decide_unpack _). vm_compute. exact I.
    - apply every_found. apply (bool_decide_unpack _). vm_compute. exact I. }
  rewrite Hrun. cbn [fst snd]. split; [reflexivity|]. split; [vm_compute; reflexivity|].
  destruct (Hafter _ Hrun) as (_ & _ & Hempty).
  rewrite Hempty; [done|]. apply (bool_decide_unpack _). vm_compute. exact I.
Defined.

(** Locking [tap_gitlab] twice: the second call is refused unless
    [exists_ok] is given. *)
Lemma service_save_exists_ok_witness :
  (@PluginLocks.new_PluginLock plugins project tap_gitlab disk).1 = Ok gitlab_lock
  ∧ @PluginLocks.service_save plugins project tap_gitlab false disk
    = (Ok tt, PluginLocks.saved gitlab_lock disk)
  ∧ @PluginLocks.service_save plugins project tap_gitlab false
      (PluginLocks.saved gitlab_lock disk)
    = (Raise (@PluginLocks.LockfileAlreadyExistsError plugins
                ["plugins"; "extractors"; "tap-gitlab--meltanolabs.lock.json"]
                tap_gitlab),
       PluginLocks.saved gitlab_lock disk)
  ∧ @PluginLocks.service_save plugins project tap_gitlab true
      (PluginLocks.saved gitlab_lock disk)
    = (Ok tt, PluginLocks.saved gitlab_lock disk).
Proof.
  split; [reflexivity|].
  destruct (@service_save_exists_ok plugins project tap_gitlab gitlab_lock disk eq_refl)
    as (_ & Hfresh & Hsave).
  destruct (@service_save_exists_ok plugins project tap_gitlab gitlab_lock
              (PluginLocks.saved gitlab_lock disk) eq_refl)
    as (Hexists & Hagain & Hsave').
  split_and!.
  - rewrite Hfresh by (right; reflexivity). apply Hsave. by repeat split.
  - apply Hexists. reflexivity.
  - rewrite Hagain by (by left).
    destruct Hsave' as [-> _]; [by repeat split|].
    by rewrite saved_saved.
Defined.

(** Saving and loading the lock of [tap_gitlab]. *)
Lemma save_load_round_trip_witness :
  writable (PluginLocks.path_ gitlab_lock) disk
  ∧ (PluginLocks.save gitlab_lock >>
     PluginLocks.load gitlab_lock false PluginLocks.default_loader) disk
    = (Ok {| s_type := "extractors"; s_name := "tap-gitlab";
             s_variant := "meltanolabs"; s_pip_url := "meltanolabs-tap-gitlab" |},
       PluginLocks.saved gitlab_lock disk).
Proof.
  assert (Hw : writable (PluginLocks.path_ gitlab_lock) disk) by (by repeat split).
  split; [exact Hw|].
  destruct (@save_load_round_trip plugins gitlab_lock disk Hw) as (_ & Hrun & _).
  - vm_compute. reflexivity.
  - intros [t n v u]. eexists. split; reflexivity.
  - rewrite Hrun. reflexivity.
Defined.

(** No lockfile yet: a plain [load] fails, [load] with [create] writes
    the lock and reads it back. *)
Lemma load_or_initialize_witness :
  gone (PluginLocks.path_ gitlab_lock) disk
  ∧ PluginLocks.load gitlab_lock false PluginLocks.default_loader disk
    = (Raise PluginLocks.FileNotFoundError, disk)
  ∧ PluginLocks.load gitlab_lock true PluginLocks.default_loader disk
    = (Ok {| s_type := "extractors"; s_name := "tap-gitlab";
             s_variant := "meltanolabs"; s_pip_url := "meltanolabs-tap-gitlab" |},
       PluginLocks.saved gitlab_lock disk).
Proof.
  assert (Hgone : gone (PluginLocks.path_ gitlab_lock) disk) by (by split).
  split; [exact Hgone|].
  destruct (@load_or_initialize plugins _ gitlab_lock PluginLocks.default_loader disk Hgone)
    as (Hplain & _ & _ & Hcreate).
  split; [exact Hplain|].
  destruct Hcreate as [-> _]; [by repeat split|]. reflexivity.
Defined.

(** A stale lockfile is there, the loader raises [FileNotFoundError] on
    it: a plain [load] reports it as if the lockfile were missing, and
    [load] with [create] overwrites the lockfile. *)
Lemma loader_error_taken_for_absence_witness :
  f_content <$> files (lockfile_holding "stale") !! PluginLocks.path_ gitlab_lock
  = Some "stale"
  ∧ PluginLocks.load gitlab_lock false picky_loader (lockfile_holding "stale")
    = (Raise PluginLocks.FileNotFoundError, lockfile_holding "stale")
  ∧ PluginLocks.load gitlab_lock true picky_loader (lockfile_holding "stale")
    = (Ok (PluginLocks.lock_text gitlab_lock),
       PluginLocks.saved gitlab_lock (lockfile_holding "stale")).
Proof.
  split; [reflexivity|].
  destruct (@loader_error_taken_for_absence plugins _ gitlab_lock picky_loader
              (lockfile_holding "stale") (File (Stat 5 900) "stale") eq_refl eq_refl)
    as (Hplain & _ & _ & Hcreate).
  split; [exact Hplain|].
  destruct Hcreate as [-> _]; [by repeat split|]. reflexivity.
Defined.

(** The checksum of the lock of [tap_gitlab], before and after the
    lockfile is overwritten: it has changed. *)
Lemma sha256_checksum_of_current_bytes_witness :
  PluginLocks.sha256_checksum gitlab_lock (lockfile_holding "stale")
  = (Ok "a03f2386ae06b21109577020844df367857b72c2fcce384c1896fed98a89c82b",
     lockfile_holding "stale")
  ∧ (PluginLocks.save gitlab_lock >> PluginLocks.sha256_checksum gitlab_lock)
      (lockfile_holding "stale")
    = (Ok "cbf6f0e010105ac3e6ee17c5298be7f84792e2d9f43bc4292102901dcb142bdf",
       PluginLocks.saved gitlab_lock (lockfile_holding "stale"))
  ∧ PluginLocks.lock_text gitlab_lock ≠ "stale".
Proof.
  assert (Hstale : SHA256.hexdigest "stale"
                   = "a03f2386ae06b21109577020844df367857b72c2fcce384c1896fed98a89c82b")
    by (vm_compute; reflexivity).
  assert (Hlock : SHA256.hexdigest (PluginLocks.lock_text gitlab_lock)
                  = "cbf6f0e010105ac3e6ee17c5298be7f84792e2d9f43bc4292102901dcb142bdf")
    by (vm_compute; reflexivity).
  destruct (@sha256_checksum_of_current_bytes plugins gitlab_lock
              (lockfile_holding "stale") (File (Stat 5 900) "stale") eq_refl)
    as (Hnow & Hother & Hafter).
  split_and!.
  - rewrite Hnow. cbn [f_content]. by rewrite Hstale.
  - rewrite Hafter by (by repeat split). by rewrite Hlock.
  - destruct (Hother (PluginLocks.saved gitlab_lock (lockfile_holding "stale"))
                (File (Stat (Z.of_nat (String.length (PluginLocks.lock_text gitlab_lock)))
                            1000)
                      (PluginLocks.lock_text gitlab_lock)) eq_refl) as (_ & Hdiffer & _).
    apply Hdiffer. rewrite Hnow. rewrite sha256_checksum_run, saved_lookup.
    cbn [fst f_content]. rewrite Hstale, Hlock. discriminate.
Defined.

(** ** The further properties at work *)

(** Listing the logs of [staging], which never ran, creates its
    directory and nothing else. *)
Lemma get_all_logs_only_makes_directories_witness :
  (get_all_logs "staging" disk).1 = Ok []
  ∧ dirs disk !! ["logs"; "elt"; "staging"] = None
  ∧ is_Some (dirs (get_all_logs "staging" disk).2 !! ["logs"; "elt"; "staging"])
  ∧ dirs (get_all_logs "staging" disk).2 !! ["run"; "elt"; "staging"] = None
  ∧ files (get_all_logs "staging" disk).2 = files disk
  ∧ get_all_logs "staging" (get_all_logs "staging" disk).2
    = (Ok [], (get_all_logs "staging" disk).2).
Proof.
  assert (Hlogs : get_all_logs "staging" disk
                  = (Ok [], (get_all_logs "staging" disk).2))
    by (vm_compute; reflexivity).
  destruct (get_all_logs_only_makes_directories project slugify makedirs_dir
              _ _ _ _ Hlogs) as (Hfiles & _ & _ & _ & Hdir & _ & _ & Hagain).
  split_and!.
  - by rewrite Hlogs.
  - vm_compute. reflexivity.
  - exact Hdir.
  - vm_compute. reflexivity.
  - exact Hfiles.
  - apply Hagain. apply (bool_decide_unpack _). vm_compute. exact I.
Defined.

(** The directory [run] cannot be made: the listing fails, after the
    directory of the job was made. *)
Lemma listing_fails_with_the_directory_helper_witness :
  (make_logs_dirs "staging" no_run_disk).1 = Raise EACCES
  ∧ (get_all_logs "staging" no_run_disk).1 = Raise (JobLogging.OSError EACCES)
  ∧ (get_latest_log "staging" no_run_disk).1 = Raise (JobLogging.OSError EACCES)
  ∧ dirs no_run_disk !! ["logs"; "elt"; "staging"] = None
  ∧ dirs (get_all_logs "staging" no_run_disk).2 !! ["logs"; "elt"; "staging"]
    = Some (Stat 0 1000)
  ∧ files (get_all_logs "staging" no_run_disk).2 = files no_run_disk.
Proof.
  split; [vm_compute; reflexivity|].
  destruct (listing_fails_with_the_directory_helper project slugify makedirs_dir
              resolve decode "staging" no_run_disk EACCES ltac:(vm_compute; reflexivity))
    as (Hall & _ & Hlatest & _ & Hfiles & _).
  rewrite Hall, Hlatest. cbn [fst snd].
  split_and!; [done|done|reflexivity|vm_compute; reflexivity|exact Hfiles].
Defined.

(** Every [mkdir] fails with [ENOENT]: the block under [create_log]
    does not run. *)
Lemma create_log_does_not_cover_the_directory_witness :
  (generate_log_name "dev" "run-3" "elt.log" vanishing_disk).1
  = Raise (JobLogging.OSError ENOENT)
  ∧ with_create_log "dev" "run-3" "elt.log"
      (λ f, JobLogging.write_all f ["hello"]) vanishing_disk
    = (Raise (JobLogging.OSError ENOENT), vanishing_disk).
Proof.
  split; [vm_compute; reflexivity|].
  destruct (create_log_does_not_cover_the_directory project makedirs_dir closes_generator
              "dev" "run-3" "elt.log" (λ f, JobLogging.write_all f ["hello"])
              vanishing_disk (JobLogging.OSError ENOENT) ltac:(vm_compute; reflexivity))
    as (Hwith & _).
  rewrite Hwith. apply (f_equal (pair (Raise (JobLogging.OSError ENOENT)))).
  vm_compute. reflexivity.
Defined.

(** Two logs of [twins] have the same time stamp: the one of the
    primary directory comes first. *)
Lemma get_all_logs_keeps_the_order_of_ties_witness :
  (get_all_logs "twins" tied_disk).1
  = Ok [ ["logs"; "elt"; "twins"; "run-b"; "elt.log"];
         ["run"; "elt"; "twins"; "run-a"; "elt.log"];
         ["logs"; "elt"; "twins"; "run-c"; "elt.log"] ]
  ∧ filter (λ p, JobLogging.ctime_of tied_disk p = 700)
      [ ["logs"; "elt"; "twins"; "run-b"; "elt.log"];
        ["run"; "elt"; "twins"; "run-a"; "elt.log"];
        ["logs"; "elt"; "twins"; "run-c"; "elt.log"] ]
    = [ ["logs"; "elt"; "twins"; "run-b"; "elt.log"];
        ["run"; "elt"; "twins"; "run-a"; "elt.log"] ].
Proof.
  assert (Hlogs : get_all_logs "twins" tied_disk
                  = (Ok [ ["logs"; "elt"; "twins"; "run-b"; "elt.log"];
                          ["run"; "elt"; "twins"; "run-a"; "elt.log"];
                          ["logs"; "elt"; "twins"; "run-c"; "elt.log"] ],
                     tied_disk)).
  { rewrite get_all_logs_run, make_logs_dirs_present; [vm_compute; reflexivity| |by eexists..].
    apply (bool_decide_unpack _). vm_compute. exact I. }
  split; [by rewrite Hlogs|].
  rewrite (get_all_logs_keeps_the_order_of_ties project slugify makedirs_dir
             _ _ _ _ Hlogs 700).
  vm_compute. reflexivity.
Defined.

(** A run of [dev] writes its log in two chunks. *)
Lemma create_log_writes_the_log_witness :
  writable ["logs"; "elt"; "dev"; "run-3"; "elt.log"] disk
  ∧ f_content <$>
      files (with_create_log "dev" "run-3" "elt.log"
               (λ f, JobLogging.write_all f ["extract; "; "load"]) disk).2
      !! ["logs"; "elt"; "dev"; "run-3"; "elt.log"]
    = Some "extract; load".
Proof.
  assert (Hw : writable ["logs"; "elt"; "dev"; "run-3"; "elt.log"] disk)
    by (by repeat split).
  split; [exact Hw|].
  assert (Hname : generate_log_name "dev" "run-3" "elt.log" disk
                  = (Ok ["logs"; "elt"; "dev"; "run-3"; "elt.log"],
                     (generate_log_name "dev" "run-3" "elt.log" disk).2))
    by (vm_compute; reflexivity).
  destruct (create_log_writes_the_log project makedirs_dir closes_generator
              "dev" "run-3" "elt.log"
              ["extract; "; "load"] disk _ _ Hname) as (_ & Hcontent & _).
  - by repeat split.
  - exact Hcontent.
Defined.


(** The run [run-3] of [dev] writes a log whose first line ends in
    [\r\n]; it is then the latest log of [dev], and the line end comes
    back as [\n]. *)
Lemma create_log_then_get_latest_log_witness :
  (get_latest_log "dev"
     (with_create_log "dev" "run-3" "elt.log"
        (λ f, JobLogging.write_all f
                ["extract" +:+ String OS.CR (String OS.LF ""); "load"]) disk).2).1
  = Ok ("extract" +:+ String OS.LF "load")
  ∧ (get_downloadable_log "dev"
       (with_create_log "dev" "run-3" "elt.log"
          (λ f, JobLogging.write_all f
                  ["extract" +:+ String OS.CR (String OS.LF ""); "load"]) disk).2).1
    = Ok "/project/logs/elt/dev/run-3/elt.log".
Proof.
  set (chunks := ["extract" +:+ String OS.CR (String OS.LF ""); "load"]).
  assert (Hname : generate_log_name "dev" "run-3" "elt.log" disk
                  = (Ok ["logs"; "elt"; "dev"; "run-3"; "elt.log"],
                     (generate_log_name "dev" "run-3" "elt.log" disk).2))
    by (vm_compute; reflexivity).
  set (w3 := (with_create_log "dev" "run-3" "elt.log"
                (λ f, JobLogging.write_all f chunks) disk).2).
  assert (Hmk : make_logs_dirs "dev" w3 = (Ok tt, w3)).
  { apply make_logs_dirs_present; [|by eexists..].
    apply (bool_decide_unpack _). vm_compute. exact I. }
  destruct (create_log_then_get_latest_log project slugify makedirs_dir resolve decode
              closes_generator "dev" "run-3" "elt.log" chunks disk
              ["logs"; "elt"; "dev"; "run-3"; "elt.log"] _ w3 w3
              eq_refl Hname ltac:(by repeat split) ltac:(vm_compute; discriminate)
              eq_refl Hmk) as (_ & Hlatest & Hpath).
  - apply (every_found
             (λ q, q ≠ ["logs"; "elt"; "dev"; "run-3"; "elt.log"] →
                   JobLogging.ctime_of w3 q < clock disk)).
    apply (bool_decide_unpack _). vm_compute. exact I.
  - rewrite (Hlatest _ eq_refl), Hpath. split; reflexivity.
Defined.

(** A log written as [elt.txt] is not among the logs of the job. *)
Lemma other_file_names_are_never_listed_witness :
  OS.ends_with ".log" "elt.txt" = false
  ∧ ["logs"; "elt"; "dev"; "run-2"; "elt.txt"]
    ∉ [ ["logs"; "elt"; "dev"; "run-2"; "elt.log"];
        ["logs"; "elt"; "dev"; "run-1"; "elt.log"];
        ["run"; "elt"; "dev"; "old-run"; "elt.log"] ].
Proof.
  split; [reflexivity|].
  destruct dev_logs as [_ Hlogs].
  exact (other_file_names_are_never_listed project slugify makedirs_dir
           "dev" "run-2" "elt.txt" disk _ disk eq_refl eq_refl Hlogs).
Defined.

(** The disk is full: [save] empties the stale lockfile and fails, and
    the lock cannot be taken any more without [exists_ok]. *)
Lemma save_is_not_atomic_witness :
  f_content <$> files full_disk !! PluginLocks.path_ gitlab_lock = Some "stale"
  ∧ (PluginLocks.save gitlab_lock full_disk).1 = Raise (PluginLocks.OSError ENOSPC)
  ∧ f_content <$> files (PluginLocks.save gitlab_lock full_disk).2
                  !! PluginLocks.path_ gitlab_lock
    = Some ""
  ∧ (@PluginLocks.service_save plugins project tap_gitlab false
       (PluginLocks.save gitlab_lock full_disk).2).1
    = Raise (@PluginLocks.LockfileAlreadyExistsError plugins
               ["plugins"; "extractors"; "tap-gitlab--meltanolabs.lock.json"]
               tap_gitlab).
Proof.
  split; [reflexivity|].
  destruct (@save_is_not_atomic plugins project tap_gitlab gitlab_lock full_disk eq_refl)
    as [_ Hwrite].
  destruct (Hwrite ENOSPC eq_refl eq_refl eq_refl) as (Hraise & Hempty & _ & _ & Hagain).
  split_and!; [exact Hraise|exact Hempty|by rewrite Hagain].
Defined.

(** A lockfile that does not hold a plugin: [load] reports what the
    loader raises and does not touch the file, even with [create]. *)
Lemma load_leaves_a_readable_lockfile_alone_witness :
  @PluginLocks.default_loader plugins "stale" = Raise (PluginLocks.Foreign "TypeError")
  ∧ PluginLocks.load gitlab_lock true PluginLocks.default_loader (lockfile_holding "stale")
    = (Raise (PluginLocks.Foreign "TypeError"), lockfile_holding "stale").
Proof.
  split; [reflexivity|].
  exact (@load_leaves_a_readable_lockfile_alone plugins _ gitlab_lock
           PluginLocks.default_loader (lockfile_holding "stale")
           (File (Stat 5 900) "stale") eq_refl ltac:(discriminate) true).
Defined.

(** A directory where the lockfile should be. *)
Lemma directory_at_the_lock_path_witness :
  dirs lock_dir_disk !! PluginLocks.path_ gitlab_lock = Some (Stat 0 900)
  ∧ @PluginLocks.service_save plugins project tap_gitlab true lock_dir_disk
    = (Raise (PluginLocks.OSError EISDIR), lock_dir_disk)
  ∧ PluginLocks.load gitlab_lock true PluginLocks.default_loader lock_dir_disk
    = (Raise (PluginLocks.OSError EISDIR), lock_dir_disk).
Proof.
  split; [reflexivity|].
  destruct (@directory_at_the_lock_path plugins project _ tap_gitlab gitlab_lock
              PluginLocks.default_loader lock_dir_disk (Stat 0 900)
              eq_refl eq_refl eq_refl eq_refl) as (_ & Hsave & Hload & _).
  split; [exact Hsave|exact (Hload true)].
Defined.

(** The fork of [tap_gitlab] cannot be locked once [tap_gitlab] is. *)
Lemma plugins_with_the_same_names_share_a_lockfile_witness :
  PluginLocks.lock_text gitlab_lock ≠ PluginLocks.lock_text fork_lock
  ∧ ((@PluginLocks.service_save plugins project tap_gitlab false >>
      @PluginLocks.service_save plugins project tap_gitlab_fork false) disk).1
    = Raise (@PluginLocks.LockfileAlreadyExistsError plugins
               ["plugins"; "extractors"; "tap-gitlab--meltanolabs.lock.json"]
               tap_gitlab_fork)
  ∧ f_content <$>
      files ((@PluginLocks.service_save plugins project tap_gitlab false >>
              @PluginLocks.service_save plugins project tap_gitlab_fork false) disk).2
      !! PluginLocks.path_ fork_lock
    = Some (PluginLocks.lock_text gitlab_lock).
Proof.
  split; [vm_compute; discriminate|].
  destruct (@plugins_with_the_same_names_share_a_lockfile plugins project
              tap_gitlab tap_gitlab_fork gitlab_lock fork_lock disk
              eq_refl eq_refl eq_refl eq_refl eq_refl
              ltac:(by split) ltac:(by repeat split)) as (_ & Hboth & Hheld).
  rewrite Hboth. split; [reflexivity|exact Hheld].
Defined.

(** The lockfile of [tap_gitlab] and its checksum, by way of the
    service and by way of [load]. *)
Lemma lockfile_is_the_same_however_written_witness :
  @PluginLocks.service_save plugins project tap_gitlab true disk
  = (Ok tt, PluginLocks.saved gitlab_lock disk)
  ∧ (PluginLocks.load gitlab_lock true PluginLocks.default_loader disk).2
    = PluginLocks.saved gitlab_lock disk
  ∧ (PluginLocks.sha256_checksum gitlab_lock (PluginLocks.saved gitlab_lock disk)).1
    = Ok "cbf6f0e010105ac3e6ee17c5298be7f84792e2d9f43bc4292102901dcb142bdf".
Proof.
  destruct (@lockfile_is_the_same_however_written plugins project _ tap_gitlab gitlab_lock
              PluginLocks.default_loader disk eq_refl ltac:(by repeat split))
    as (_ & Hservice & Hload & Hsum & _).
  assert (Hdigest : SHA256.hexdigest (PluginLocks.lock_text gitlab_lock)
                    = "cbf6f0e010105ac3e6ee17c5298be7f84792e2d9f43bc4292102901dcb142bdf")
    by (vm_compute; reflexivity).
  split_and!.
  - exact Hservice.
  - apply Hload. by split.
  - rewrite Hsum. cbn [fst]. by rewrite Hdigest.
Defined.
